(** * adv_game: the non-repeating random selector and the castle navigation

    A shallow embedding of [adventure/adv_game.py].  Python objects become
    records, methods become functions that return the updated receiver, the
    [random] module becomes a tape of raw draws that is threaded through
    every call, and exceptions become the [Raise] constructor of [res]. *)

From stdpp Require Import base option list strings pretty.
From Stdlib Require Import ZArith.

Local Open Scope string_scope.
Local Open Scope list_scope.

(** ** Exceptions and results *)

(** The exceptions the modelled code can let escape: [random.choice] on an
    empty sequence raises [IndexError], [input] at end of input raises
    [EOFError].  ([ValueError] of [int] is caught inside [select_door].) *)
Inductive exn : Type :=
  | IndexError
  | EOFError.

Inductive res (A : Type) : Type :=
  | Ret (a : A)
  | Raise (e : exn).
Arguments Ret {A} a.
Arguments Raise {A} e.

Global Instance res_ret : MRet res := @Ret.
Global Instance res_bind : MBind res := λ A B f m,
  match m with
  | Ret a => f a
  | Raise e => Raise e
  end.

(** ** The [random] module

    The generator state is the tape of raw draws still to come; each call
    of the module consumes one entry (an exhausted tape keeps giving 0).
    [randbelow n] is the index [random.choice] and [random.randint] build
    on: a number below [n]. *)
Definition rng : Type := list nat.

Definition randbelow (n : nat) (g : rng) : nat * rng :=
  (hd 0 g `mod` n, tl g).

(** [random.choice(seq)]: [IndexError] on an empty sequence, otherwise
    [seq[randbelow(len(seq))]]. *)
Definition random_choice {A : Type} (seq : list A) (g : rng) : res (A * rng) :=
  match seq with
  | [] => Raise IndexError
  | _ :: _ =>
      let '(i, g') := randbelow (length seq) g in
      match seq !! i with
      | Some x => Ret (x, g')
      | None => Raise IndexError
      end
  end.

(** [random.randint(a, b)] for [a <= b]: [a + randbelow(b - a + 1)]. *)
Definition random_randint (a b : nat) (g : rng) : nat * rng :=
  let '(i, g') := randbelow (b - a + 1) g in (a + i, g').

(** ** class RandomItemSelector *)

Module RandomItemSelector.
Section selector.
(** [T] is the type of the pool's items; [itm not in self.used_items]
    compares by [==], that is by the decidable equality of [T].  The
    result [None] of [pull_random_item] says that there was nothing to
    draw; a pool that may hold Python's [None] as an entry is a selector
    over an option type, see [returned_value] below. *)
Context {T : Type} `{EqDecision T}.

Record t : Type := mk {
  items : list T;
  used_items : list T
}.

(** [__init__(items=None)] *)
Definition __init__ (its : option (list T)) : t :=
  {| items := match its with Some l => l | None => [] end;
     used_items := [] |}.

(** [init(items=None)] calls [self.__init__(items)]. *)
Definition init (self : t) (its : option (list T)) : t := __init__ its.

Definition add_item (self : t) (item : T) : t :=
  {| items := items self ++ [item]; used_items := used_items self |}.

Definition reset (self : t) : t :=
  {| items := items self; used_items := [] |}.

(** The comprehension of line 68:
    [[itm for itm in self.items if itm not in self.used_items]]. *)
Definition available (self : t) : list T :=
  filter (λ itm, itm ∉ used_items self) (items self).

Definition pull_random_item (self : t) (g : rng) : res (option T * t * rng) :=
  match items self with
  | [] =>
      (* self.used_items.clear(); return None *)
      Ret (None, {| items := items self; used_items := [] |}, g)
  | _ :: _ =>
      let avail := available self in
      let '(self, avail) :=
        match avail with
        | [] => (reset self, items self)
        | _ :: _ => (self, avail)
        end in
      '(choice, g) ← random_choice avail g;
      Ret (Some choice,
           {| items := items self; used_items := used_items self ++ [choice] |},
           g)
  end.

(** [n] consecutive calls of [pull_random_item] and nothing in between:
    the values returned, in order, with the final state. *)
Fixpoint pull_n (n : nat) (self : t) (g : rng) : res (list (option T) * t * rng) :=
  match n with
  | 0 => Ret ([], self, g)
  | S n =>
      '(r, self, g) ← pull_random_item self g;
      '(rs, self, g) ← pull_n n self g;
      Ret (r :: rs, self, g)
  end.

(** A selector starts a cycle when none of the pool's values is marked
    used (fresh, or just reset) or all of them are (exhausted: the next
    call resets before it draws). *)
Definition cycle_boundary (self : t) : Prop :=
  available self = items self ∨ available self = [].

(** None of the next [n] calls takes the branch of lines 70 to 73, which
    resets [used_items]: each finds something available. *)
Fixpoint no_auto_reset (n : nat) (self : t) (g : rng) : Prop :=
  match n with
  | 0 => True
  | S n =>
      available self ≠ []
      ∧ match pull_random_item self g with
        | Ret (_, self', g') => no_auto_reset n self' g'
        | Raise _ => True
        end
  end.

(** The operations a client can apply to a selector, and the selector
    after a run of them from its construction.  A draw carries the state
    of [random] it is made with. *)
Inductive op : Type :=
  | Init (its : option (list T))
  | AddItem (item : T)
  | PullRandomItem (g : rng)
  | Reset.

Definition apply_op (self : t) (o : op) : t :=
  match o with
  | Init its => init self its
  | AddItem item => add_item self item
  | PullRandomItem g =>
      match pull_random_item self g with
      | Ret (_, self', _) => self'
      | Raise _ => self
      end
  | Reset => reset self
  end.

Definition run (its : option (list T)) (ops : list op) : t :=
  foldl apply_op (__init__ its) ops.
End selector.
Arguments t T : clear implicits.
Arguments op T : clear implicits.
End RandomItemSelector.

(** ** Module-level text corpora *)

Definition clues : list string := [
  "There is a scorched crescent on the wall where something burned briefly.";
  "There is a line of crushed petals leading toward a closed corner.";
  "There is a faint smear of ash along the baseboard, as if something smoldered and was moved.";
  "There is a folded note tucked beneath a loose floorboard, its edges softened by handling.";
  "There is a dark ring on the table where glasses were set and then forgotten.";
  "There is a single, muddy footprint half-hidden under the rug's fringe.";
  "There is a dried drip mark on the ceiling, streaking down and long since settled.";
  "There is a cluster of tiny punctures in the curtain, their pattern oddly deliberate.";
  "There is a hurriedly rearranged stack of books, their spines scuffed and out of order.";
  "There is a faint trace of perfume lingering in the corner, layered with dust and time."
].

Definition sense_exp : list string := [
  "You see candlelight tremble along a tapestry's braided edge, answering a drifting draft.";
  "You hear the slow settling of stone, a low groan that might once have been a footstep.";
  "You smell iron and old wax layered with something sweet and green, like dried herbs.";
  "You feel the floorboards whisper underfoot, as if remembering a hurried passage.";
  "You sense a cool current that carries the echo of laughter or the memory of it.";
  "You see a shadow pause in the corner, holding a shape a heartbeat too long.";
  "You hear the soft clink of glass far away, as if someone set down a fragile secret.";
  "You smell smoke threaded with rosemary, the trace of a brazier long since banked.";
  "You feel the windowsill's stone — worn smooth and faintly warm from many palms.";
  "You sense the air thicken, a subtle pressure like someone hesitating beyond the door.";
  "You see motes of dust turn in a single beam of light, each one a silent witness.";
  "You hear a patient tapping behind the plaster, regular and oddly deliberate."
].

(** ** Truthiness

    [if clue and sense], [if clue], [clue or sense or ""] test the truth
    value of an [Optional[str]]: [None] and the empty string are false,
    every other string is true. *)
Definition truthy (v : option string) : bool :=
  match v with
  | None => false
  | Some s => negb (String.eqb s "")
  end.

(** ** class SenseClueGenerator *)

Module SenseClueGenerator.
Record t : Type := mk {
    clue_selector : RandomItemSelector.t string;
    sense_selector : RandomItemSelector.t string
  }.

  (** [__new__]: [_instance] is the class attribute holding the singleton;
      the first call builds it from the module-level corpora, every later
      call hands out the instance that exists. *)
Definition __new__ (_instance : option t) : t * option t :=
    match _instance with
    | None =>
        let inst := {| clue_selector := RandomItemSelector.__init__ (Some clues);
                       sense_selector := RandomItemSelector.__init__ (Some sense_exp) |} in
        (inst, Some inst)
    | Some inst => (inst, Some inst)
    end.

Definition get_senseclue (self : t) (g : rng) : res (string * t * rng) :=
    '(clue, cs, g) ← RandomItemSelector.pull_random_item (clue_selector self) g;
    '(sense, ss, g) ← RandomItemSelector.pull_random_item (sense_selector self) g;
    let self := {| clue_selector := cs; sense_selector := ss |} in
    let out :=
      if truthy clue && truthy sense then
        default "" clue +:+ " " +:+ default "" sense
      else if truthy clue then default "" clue
      else if truthy sense then default "" sense
      else "" in
    Ret (out, self, g).
End SenseClueGenerator.

(** ** Outcomes, encounters, rooms *)

Inductive encounter_outcome : Type :=
  | CONTINUE
  | END.
Abbreviation EncounterOutcome := encounter_outcome.

Global Instance encounter_outcome_eq_dec : EqDecision encounter_outcome.
Proof. solve_decision. Defined.

(** The concrete subclasses of the abstract [Encounter]; the source has
    one.  Its [generator] attribute is the singleton, which lives in the
    [World] below. *)
Inductive Encounter : Type :=
  | DefaultEncounter.

Global Instance Encounter_eq_dec : EqDecision Encounter.
Proof. solve_decision. Defined.

(** [Room] defines no [__eq__], so [==] on rooms is object identity:
    [room_id] is the object's identity, and two records are equal exactly
    when they stand for the same object. *)
Record Room : Type := mkRoom {
  room_id : nat;
  name : string;
  encounter : Encounter
}.

Global Instance Room_eq_dec : EqDecision Room.
Proof. solve_decision. Defined.

(** ** The world: generator state, console, singleton *)

Record World : Type := mkWorld {
  rand : rng;
  stdin : list string;          (* the lines still to be read *)
  stdout : list string;         (* what was written, oldest first *)
  generator : SenseClueGenerator.t
}.

(** State and exception monad over the world; a raised exception keeps
    the effects that happened before it. *)
Definition M (A : Type) : Type := World → res A * World.

Global Instance M_ret : MRet M := λ A a w, (Ret a, w).
Global Instance M_bind : MBind M := λ A B f m w,
  match m w with
  | (Ret a, w') => f a w'
  | (Raise e, w') => (Raise e, w')
  end.

Definition write (s : string) : M unit := λ w,
  (Ret (), {| rand := rand w; stdin := stdin w; stdout := stdout w ++ [s];
              generator := generator w |}).

(** The line feed, written "\n" in the source. *)
Definition newline : string := String (Ascii.ascii_of_nat 10) "".

(** [print(s)] writes [s] and a line feed. *)
Definition print (s : string) : M unit := write (s +:+ newline).

(** Run a call that threads the generator state of [random] in the world. *)
Definition with_rand {A : Type} (f : rng → res (A * rng)) : M A := λ w,
  match f (rand w) with
  | Ret (a, g) =>
      (Ret a, {| rand := g; stdin := stdin w; stdout := stdout w;
                 generator := generator w |})
  | Raise e => (Raise e, w)
  end.

(** The lines that [input] has not read yet. *)
Definition pending_input : M (list string) := λ w, (Ret (stdin w), w).

(** [s * n] on strings. *)
Fixpoint str_mul (s : string) (n : nat) : string :=
  match n with
  | 0 => ""
  | S n => s +:+ str_mul s n
  end.

(** [DefaultEncounter.run_encounter].  [SenseClueGenerator] defines no
    attribute [pull_random_item], so [getattr(..., None)] gives [None], which
    is not callable: the method always takes its fallback branch, drawing
    from the two selectors of the singleton. *)
Definition pull_clue : M (option string) := λ w,
  let gen := generator w in
  match RandomItemSelector.pull_random_item (SenseClueGenerator.clue_selector gen) (rand w) with
  | Ret (r, sel, g) =>
      (Ret r, {| rand := g; stdin := stdin w; stdout := stdout w;
                 generator := {| SenseClueGenerator.clue_selector := sel;
                                 SenseClueGenerator.sense_selector :=
                                   SenseClueGenerator.sense_selector gen |} |})
  | Raise e => (Raise e, w)
  end.

Definition pull_sense : M (option string) := λ w,
  let gen := generator w in
  match RandomItemSelector.pull_random_item (SenseClueGenerator.sense_selector gen) (rand w) with
  | Ret (r, sel, g) =>
      (Ret r, {| rand := g; stdin := stdin w; stdout := stdout w;
                 generator := {| SenseClueGenerator.clue_selector :=
                                   SenseClueGenerator.clue_selector gen;
                                 SenseClueGenerator.sense_selector := sel |} |})
  | Raise e => (Raise e, w)
  end.

Definition run_encounter (self : Encounter) : M EncounterOutcome :=
  match self with
  | DefaultEncounter =>
      clue ← pull_clue;
      sense ← pull_sense;
      let output :=
        if truthy clue && truthy sense then
          default "" clue +:+ " " +:+ default "" sense
        else if truthy clue then default "" clue       (* clue or sense or "" *)
        else if truthy sense then default "" sense
        else "" in
      _ ← print output;
      mret CONTINUE
  end.

Definition visit_room (self : Room) : M EncounterOutcome :=
  run_encounter (encounter self).

(** The module-level list [rooms]: six distinct objects. *)
Definition rooms : list Room := [
  mkRoom 0 "Throne Room" DefaultEncounter;
  mkRoom 1 "Armory" DefaultEncounter;
  mkRoom 2 "Library" DefaultEncounter;
  mkRoom 3 "Great Hall" DefaultEncounter;
  mkRoom 4 "Solar" DefaultEncounter;
  mkRoom 5 "Dungeon" DefaultEncounter
].

(** ** class Castle *)

Module Castle.
Section castle.
(** [int_of_str s] stands for the built-in [int(s.strip())] of line 216
    and 217: [Some n] when the text is an integer literal, [None] when
    [int] raises [ValueError]. *)
Variable int_of_str : string → option Z.

Record t : Type := mk {
  room_selector : RandomItemSelector.t Room
}.

(** [__init__(rooms=None)] falls back on the module-level [rooms]. *)
Definition __init__ (rms : option (list Room)) : t :=
  let rooms_list := match rms with Some l => l | None => rooms end in
  {| room_selector := RandomItemSelector.__init__ (Some rooms_list) |}.

(** The [while True] loop of [select_door].  Every turn reads one line,
    so the loop is a recursion on the lines that [stdin] still holds;
    [input] writes the prompt and raises [EOFError] when none is left. *)
Fixpoint select_door_loop (num_doors : nat) (prompt : string)
    (lines : list string) : M Z := λ w,
  let w := {| rand := rand w; stdin := lines; stdout := stdout w ++ [prompt];
              generator := generator w |} in
  match lines with
  | [] => (Raise EOFError, w)
  | choice_str :: lines =>
      let w := {| rand := rand w; stdin := lines; stdout := stdout w;
                  generator := generator w |} in
      match int_of_str choice_str with
      | Some choice =>
          if decide (1 ≤ choice ∧ choice ≤ Z.of_nat num_doors)%Z then
            (_ ← print ("You open door " +:+ pretty choice +:+ "." +:+ newline
                        +:+ str_mul "-" 40);
             mret choice) w
          else
            (_ ← print ("Invalid selection: enter a number between 1 and "
                        +:+ pretty num_doors +:+ ".");
             select_door_loop num_doors prompt lines) w
      | None =>
          (_ ← print "Invalid input: please enter a numeric value.";
           select_door_loop num_doors prompt lines) w
      end
  end.

Definition select_door (self : t) : M Z :=
  num_doors ← with_rand (λ g, Ret (random_randint 2 4 g));
  _ ← print (newline +:+ str_mul "=" 40);
  _ ← print ("There are " +:+ pretty num_doors +:+ " doors before you.");
  let prompt := "Choose a door (1-" +:+ pretty num_doors +:+ "): " in
  lines ← pending_input;
  select_door_loop num_doors prompt lines.

(** [next_room] returns the outcome together with the castle as the
    call leaves it. *)
Definition next_room (self : t) : M (EncounterOutcome * t) :=
  door ← select_door self;
  (* Door selection is ceremonial here; select a random room to visit. *)
  '(room, sel) ← with_rand (λ g,
      '(room, sel, g) ← RandomItemSelector.pull_random_item (room_selector self) g;
      Ret ((room, sel), g));
  let self := {| room_selector := sel |} in
  match room with
  | None =>
      _ ← print "No rooms available. Resetting room selector.";
      let self := {| room_selector := RandomItemSelector.reset (room_selector self) |} in
      mret (END, self)
  | Some room =>
      _ ← print ("You step through and enter: " +:+ name room);
      result ← visit_room room;
      _ ← print (str_mul "=" 40 +:+ newline);
      mret (result, self)
  end.

(** The statements of [next_room] that follow the door selection (lines
    233 to 242), under a name of their own for the proofs. *)
Definition entering (self : t) : M (EncounterOutcome * t) :=
  '(room, sel) ← with_rand (λ g,
      '(room, sel, g) ← RandomItemSelector.pull_random_item (room_selector self) g;
      Ret ((room, sel), g));
  let self := {| room_selector := sel |} in
  match room with
  | None =>
      _ ← print "No rooms available. Resetting room selector.";
      let self := {| room_selector := RandomItemSelector.reset (room_selector self) |} in
      mret (END, self)
  | Some room =>
      _ ← print ("You step through and enter: " +:+ name room);
      result ← visit_room room;
      _ ← print (str_mul "=" 40 +:+ newline);
      mret (result, self)
  end.

Definition reset (self : t) : M t :=
  let self := {| room_selector := RandomItemSelector.reset (room_selector self) |} in
  _ ← print "Room selector has been reset; all rooms are available again.";
  mret self.
End castle.
End Castle.

(** A reader for the examples: one decimal digit, nothing else. *)
Definition digit_of_str (s : string) : option Z :=
  (λ p : nat * string, Z.of_nat p.1) <$>
    list_find (λ d : string, d = s) ["0"; "1"; "2"; "3"; "4"; "5"; "6"; "7"; "8"; "9"].

Definition world0 (g : rng) (inp : list string) : World :=
  {| rand := g; stdin := inp; stdout := [];
     generator := (SenseClueGenerator.__new__ None).1 |}.

(** A generator whose clue pool holds the empty string. *)
Definition gen_empty_clue : SenseClueGenerator.t :=
  {| SenseClueGenerator.clue_selector := RandomItemSelector.__init__ (Some [""]);
     SenseClueGenerator.sense_selector := RandomItemSelector.__init__ (Some ["x"]) |}.

(** ** Reading the specification's words

    The composition the specification describes for the generator, by
    presence alone: both present, joined by one space; one present, that
    one; none, the empty string.  It is compared with [get_senseclue]
    below. *)
Definition senseclue_by_presence (clue sense : option string) : string :=
  match clue, sense with
  | Some c, Some s => c +:+ " " +:+ s
  | Some c, None => c
  | None, Some s => s
  | None, None => ""
  end.

(** ** Worlds that differ in the console only *)

(** Two worlds with the same state of [random] and the same generator
    singleton; what is typed and what was printed may differ. *)
Definition same_play (w1 w2 : World) : Prop :=
  rand w1 = rand w2 ∧ generator w1 = generator w2.

(** A computation that never reads the console: from two such worlds it
    gives the same result and two such worlds again. *)
Definition console_blind {A : Type} (m : M A) : Prop :=
  ∀ w1 w2, same_play w1 w2 →
    (m w1).1 = (m w2).1 ∧ same_play (m w1).2 (m w2).2.

(** ** Runs of visits, and what a typed line selects *)

(** [n] consecutive calls of [next_room] on one castle: the outcomes in
    order, with the castle as the last call leaves it. *)
Fixpoint next_room_n (int_of_str : string → option Z) (n : nat)
    (self : Castle.t) : M (list EncounterOutcome * Castle.t) :=
  match n with
  | 0 => mret ([], self)
  | S n =>
      '(o, self) ← Castle.next_room int_of_str self;
      '(os, self) ← next_room_n int_of_str n self;
      mret (o :: os, self)
  end.

(** The door a typed line opens when [num_doors] are on offer (lines 217
    and 218): the line must read as an integer between 1 and [num_doors]. *)
Definition door_choice (int_of_str : string → option Z) (num_doors : nat)
    (line : string) : option Z :=
  match int_of_str line with
  | Some choice =>
      if decide (1 ≤ choice ∧ choice ≤ Z.of_nat num_doors)%Z then Some choice else None
  | None => None
  end.

(** A computation that reads no line: it leaves [stdin] as it found it. *)
Definition keeps_input {A : Type} (m : M A) : Prop :=
  ∀ w, stdin (m w).2 = stdin w.

(** ** class Game *)

(** How a call of [play_game] ends: it returns, an exception leaves it, or
    the model's loop counter ran out before either happened. *)
Inductive ending : Type :=
  | Returned
  | Escaped (e : exn)
  | OutOfFuel.

Module Game.
Section game.
(** [int_of_str] is [int(s.strip())] as in [Castle]; [strip_lower s]
    stands for the built-in [s.strip().lower()] of line 277. *)
Variable int_of_str : string → option Z.
Variable strip_lower : string → string.

Record t : Type := mk {
  castle : Castle.t
}.

Definition __init__ (rms : option (list Room)) : t :=
  {| castle := Castle.__init__ rms |}.

(** The inner [while True] of [play_game] (lines 276 to 284), a recursion
    on the lines [stdin] still holds like the door prompt: [true] when the
    loop is left by [break] (restart), [false] when [play_game] returns. *)
Fixpoint restart_loop (lines : list string) : M bool := λ w,
  let w := {| rand := rand w; stdin := lines;
              stdout := stdout w ++ ["Would you like to explore a different castle? (y/n): "];
              generator := generator w |} in
  match lines with
  | [] => (Raise EOFError, w)
  | line :: lines =>
      let w := {| rand := rand w; stdin := lines; stdout := stdout w;
                  generator := generator w |} in
      let choice := strip_lower line in
      if decide (choice ∈ ["y"; "yes"]) then
        (_ ← print (newline +:+ "A new exploration begins..." +:+ newline);
         mret true) w
      else if decide (choice ∈ ["n"; "no"]) then
        (_ ← print (newline +:+ "Farewell, adventurer.");
         mret false) w
      else
        (_ ← print "Please respond with 'y' or 'n'.";
         restart_loop lines) w
  end.

(** The outer [while True] (lines 270 to 291); every turn costs one unit
    of [fuel].  The castle is carried beside the world, so that it is known
    however the loop ends; an exception leaves [next_room] at the door
    prompt, before the call has touched the castle.  The last [else] of the
    source, for an outcome that is neither [END] nor [CONTINUE], has no
    counterpart: the enumeration has no third value. *)
Fixpoint play_loop (fuel : nat) (castle : Castle.t) (w : World)
    : ending * Castle.t * World :=
  match fuel with
  | 0 => (OutOfFuel, castle, w)
  | S fuel =>
      match Castle.next_room int_of_str castle w with
      | (Raise e, w) => (Escaped e, castle, w)
      | (Ret (CONTINUE, castle), w) => play_loop fuel castle w
      | (Ret (END, castle), w) =>
          match Castle.reset castle w with
          | (Raise e, w) => (Escaped e, castle, w)
          | (Ret castle, w) =>
              match (_ ← print (newline +:+ "Game Over" +:+ newline);
                     lines ← pending_input;
                     restart_loop lines) w with
              | (Raise e, w) => (Escaped e, castle, w)
              | (Ret true, w) => play_loop fuel castle w
              | (Ret false, w) => (Returned, castle, w)
              end
          end
      end
  end.

(** [play_game]: the two opening lines, the loop, and the handler of
    [EOFError] around the loop.  ([KeyboardInterrupt], which the handler
    also catches, is not modelled.) *)
Definition play_game (fuel : nat) (self : t) (w : World) : ending * t * World :=
  let '(_, w) :=
    (_ ← print (newline +:+ "Welcome, adventurer.");
     print ("Objective: Navigate through the castle's doors and seek the hidden treasure."
            +:+ newline)) w in
  match play_loop fuel (castle self) w with
  | (Escaped EOFError, castle, w) =>
      let '(_, w) := print (newline +:+ newline +:+ "Adventure paused. Farewell.") w in
      (Returned, {| castle := castle |}, w)
  | (e, castle, w) => (e, {| castle := castle |}, w)
  end.
End game.
End Game.

(** A reader of answers for the examples: it lowers the capitals Y and N
    of the one-letter answers and leaves every other text as it is. *)
Definition lower_yn (s : string) : string :=
  if decide (s = "Y") then "y" else if decide (s = "N") then "n" else s.

(** ** Pools of Optional values

    The pool is declared [List[Any]], so an entry may be Python's [None].
    Such a pool is a selector over [option A]: the entry [None] is Python's
    [None], an entry [Some a] any other value.  [returned_value] is what
    the caller of [pull_random_item] then holds (lines 65 and 77): [None]
    when there was nothing to draw and when the entry drawn is [None]
    alike, since both are the one Python value that the caller tests with
    [is None]. *)
Definition returned_value {A : Type} (r : option (option A)) : option A :=
  match r with
  | Some item => item
  | None => None
  end.

(** The pool whose only entry is [None]. *)
Definition sel_none_item : RandomItemSelector.t (option string) :=
  RandomItemSelector.__init__ (Some [None]).

(** A pool of Optional values without a [None] entry. *)
Definition sel_optional_ab : RandomItemSelector.t (option string) :=
  RandomItemSelector.__init__ (Some [Some "A"; Some "B"]).

(** Concrete selectors and worlds for the examples. *)
Definition sel_abc : RandomItemSelector.t string :=
  RandomItemSelector.__init__ (Some ["A"; "B"; "C"]).

Definition sel_ab_exhausted : RandomItemSelector.t string :=
  {| RandomItemSelector.items := ["A"; "B"];
     RandomItemSelector.used_items := ["B"; "A"] |}.

Definition sel_aab_used : RandomItemSelector.t string :=
  {| RandomItemSelector.items := ["A"; "A"; "B"];
     RandomItemSelector.used_items := ["A"] |}.

Definition sel_none : RandomItemSelector.t string :=
  RandomItemSelector.__init__ None.

Definition castle0 : Castle.t := Castle.__init__ None.

Example pull_abc :
  RandomItemSelector.pull_n 4 (RandomItemSelector.__init__ (Some ["A"; "B"; "C"])) [2; 5; 7; 1]
  = Ret ([Some "C"; Some "B"; Some "A"; Some "B"],
         {| RandomItemSelector.items := ["A"; "B"; "C"];
            RandomItemSelector.used_items := ["B"] |}, []).
Proof. vm_compute. reflexivity. Qed.

(** Started in the middle of a cycle, three calls on three distinct items
    run over the reset and can repeat a value. *)
Example pull_mid_cycle_repeats :
  RandomItemSelector.pull_n 3
    {| RandomItemSelector.items := ["A"; "B"; "C"];
       RandomItemSelector.used_items := ["A"] |} [0; 0; 1]
  = Ret ([Some "B"; Some "C"; Some "B"],
         {| RandomItemSelector.items := ["A"; "B"; "C"];
            RandomItemSelector.used_items := ["B"] |}, []).
Proof. vm_compute. reflexivity. Qed.

(** Two equal entries are exhausted together: after one draw of "A"
    only "B" is available. *)
Example pull_duplicates :
  RandomItemSelector.pull_random_item
    (RandomItemSelector.__init__ (Some ["A"; "A"; "B"])) [1]
  = Ret (Some "A",
         {| RandomItemSelector.items := ["A"; "A"; "B"];
            RandomItemSelector.used_items := ["A"] |}, [])
  ∧ RandomItemSelector.available
      {| RandomItemSelector.items := ["A"; "A"; "B"];
         RandomItemSelector.used_items := ["A"] |} = ["B"].
Proof. split; vm_compute; reflexivity. Qed.

(** One visit with the shipped rooms: two rejected lines, then door 2. *)
Example next_room_library :
  ∃ w', Castle.next_room digit_of_str castle0 (world0 [1; 2; 3; 4; 5] ["x"; "7"; "2"; "zz"])
        = (Ret (CONTINUE,
                {| Castle.room_selector :=
                     {| RandomItemSelector.items := rooms;
                        RandomItemSelector.used_items := [mkRoom 2 "Library" DefaultEncounter] |} |}),
           w')
        ∧ stdin w' = ["zz"] ∧ rand w' = [5].
Proof. eexists. split; [vm_compute; reflexivity|]. split; reflexivity. Qed.

(** * Properties of the selector *)

Section selector_facts.
Context {T : Type} `{EqDecision T}.
Import RandomItemSelector.
Implicit Types (s : t T) (g : rng) (c x : T).

Lemma random_choice_spec {A : Type} (seq : list A) g :
  seq ≠ [] →
  ∃ a, seq !! (hd 0 g `mod` length seq) = Some a
       ∧ random_choice seq g = Ret (a, tl g).
Proof.
  intros Hne. destruct seq as [|a0 seq]; [done|].
  destruct (lookup_lt_is_Some_2 (a0 :: seq) (hd 0 g `mod` length (a0 :: seq)))
    as [a Ha].
  { apply Nat.mod_upper_bound. simpl. lia. }
  exists a. split; [done|].
  unfold random_choice, randbelow. by rewrite Ha.
Qed.

(** What a call does on a non-empty pool, in one equation: the sequence
    handed to [random.choice] and the list the choice is appended to. *)
Lemma pull_nonempty s g :
  items s ≠ [] →
  pull_random_item s g =
    '(c, g') ← random_choice
                 (match available s with [] => items s | _ :: _ => available s end) g;
    Ret (Some c,
         {| items := items s;
            used_items :=
              (match available s with [] => [] | _ :: _ => used_items s end) ++ [c] |},
         g').
Proof.
  intros Hne. unfold pull_random_item.
  destruct (items s) as [|i0 its] eqn:Hits; [done|].
  destruct (available s) as [|a0 av] eqn:Hav; simpl; by rewrite ?Hits.
Qed.

Lemma available_elem s x :
  x ∈ available s ↔ x ∈ items s ∧ x ∉ used_items s.
Proof. unfold available. rewrite list_elem_of_filter. tauto. Qed.

Lemma available_nil_iff s :
  available s = [] ↔ ∀ x, x ∈ items s → x ∈ used_items s.
Proof.
  split.
  - intros Hnil x Hx. destruct (decide (x ∈ used_items s)) as [|Hn]; [done|].
    assert (x ∈ available s) as Hin by by apply available_elem.
    rewrite Hnil in Hin. by apply elem_of_nil in Hin.
  - intros Hall. destruct (available s) as [|a l] eqn:Hav; [done|].
    assert (a ∈ available s) as Hin by (rewrite Hav; left).
    apply available_elem in Hin as [Hi Hu]. by apply Hall in Hi.
Qed.

Lemma available_all_iff s :
  available s = items s ↔ ∀ x, x ∈ items s → x ∉ used_items s.
Proof.
  unfold available. split.
  - intros Heq x Hx. rewrite <-Heq in Hx.
    by apply list_elem_of_filter in Hx as [? _].
  - intros Hall. induction (items s) as [|a l IH]; [done|].
    rewrite filter_cons_True by (apply Hall; left).
    f_equal. apply IH. intros x Hx. apply Hall. by right.
Qed.

Lemma available_fresh (its : list T) :
  available {| items := its; used_items := [] |} = its.
Proof.
  apply (proj2 (available_all_iff {| items := its; used_items := [] |})).
  simpl. intros x _. apply not_elem_of_nil.
Qed.

(** Appending [c] to the used list removes exactly the entries equal to
    [c] from what is available. *)
Lemma available_snoc its used c :
  available {| items := its; used_items := used ++ [c] |}
  = filter (λ x, x ≠ c) (available {| items := its; used_items := used |}).
Proof.
  unfold available; simpl. rewrite list_filter_filter.
  apply list_filter_iff. intros x.
  rewrite not_elem_of_app, list_elem_of_singleton. tauto.
Qed.

Lemma NoDup_remove_value (l : list T) c :
  NoDup l → c ∈ l → l ≡ₚ c :: filter (λ x, x ≠ c) l.
Proof.
  intros Hnd Hc. apply NoDup_Permutation; [done| |].
  - apply NoDup_cons. split; [|by apply NoDup_filter].
    rewrite list_elem_of_filter. tauto.
  - intros x. rewrite elem_of_cons, list_elem_of_filter.
    destruct (decide (x = c)) as [->|Hne].
    + split; [by left | done].
    + split; [by right | by intros [?|[_ ?]]].
Qed.

Lemma available_after_draw s c :
  NoDup (items s) → c ∈ available s →
  available s
  ≡ₚ c :: available {| items := items s; used_items := used_items s ++ [c] |}.
Proof.
  intros Hnd Hc. rewrite available_snoc. destruct s as [its used]; simpl in *.
  apply NoDup_remove_value; [|done]. by apply NoDup_filter.
Qed.

Lemma filter_full_length {A : Type} (P : A → Prop) `{∀ a, Decision (P a)}
    (l : list A) :
  length (filter P l) = length l → filter P l = l.
Proof.
  induction l as [|a l IH]; [done|]. intros Hlen.
  destruct (decide (P a)) as [Ha|Ha].
  - rewrite filter_cons_True in Hlen |- * by done. simpl in Hlen.
    f_equal. apply IH. lia.
  - rewrite filter_cons_False in Hlen by done.
    pose proof (length_filter P l). simpl in Hlen. lia.
Qed.

(** One call in the middle of a cycle: something is still available. *)
Lemma pull_step s g :
  available s ≠ [] →
  ∃ c, c ∈ available s
       ∧ pull_random_item s g
         = Ret (Some c, {| items := items s; used_items := used_items s ++ [c] |}, tl g).
Proof.
  intros Hav.
  assert (items s ≠ []) as Hne.
  { intros Hnil. apply Hav. unfold available. by rewrite Hnil. }
  rewrite (pull_nonempty s g Hne).
  destruct (available s) as [|a0 av] eqn:Heq; [done|].
  destruct (random_choice_spec (a0 :: av) g) as (c & Hc & ->); [done|].
  exists c. split; [|done]. by eapply list_elem_of_lookup_2.
Qed.

(** One call on an exhausted, non-empty pool. *)
Lemma pull_exhausted s g :
  items s ≠ [] → available s = [] →
  ∃ c, random_choice (items s) g = Ret (c, tl g) ∧ c ∈ items s
       ∧ pull_random_item s g
         = Ret (Some c, {| items := items s; used_items := [c] |}, tl g).
Proof.
  intros Hne Hav. rewrite (pull_nonempty s g Hne), Hav.
  destruct (random_choice_spec (items s) g Hne) as (c & Hc & Hr).
  exists c. rewrite Hr. split_and!; [done| |done].
  by eapply list_elem_of_lookup_2.
Qed.

(** As many calls as there are available items return the available
    items, each once. *)
Lemma pull_n_available k : ∀ s g,
  NoDup (items s) → length (available s) = k →
  ∃ l s' g', pull_n k s g = Ret (Some <$> l, s', g')
             ∧ l ≡ₚ available s ∧ items s' = items s.
Proof.
  induction k as [|k IH]; intros s g Hnd Hlen.
  - exists [], s, g. apply nil_length_inv in Hlen. by rewrite Hlen.
  - assert (available s ≠ []) as Hav by (intros E; by rewrite E in Hlen).
    destruct (pull_step s g Hav) as (c & Hc & Hpull).
    set (s1 := {| items := items s; used_items := used_items s ++ [c] |}) in *.
    assert (available s ≡ₚ c :: available s1) as Hperm
      by by apply available_after_draw.
    destruct (IH s1 (tl g)) as (l & s' & g' & Hrun & Hl & Hits); [done| |].
    { apply Permutation_length in Hperm. simpl in Hperm. lia. }
    exists (c :: l), s', g'. split_and!.
    + simpl. rewrite Hpull. simpl. by rewrite Hrun.
    + by rewrite Hperm, Hl.
    + done.
Qed.

(** Every call returns: [random.choice] is never handed an empty
    sequence, and the pool itself is never touched. *)
Lemma pull_total s g :
  ∃ r used g', pull_random_item s g
               = Ret (r, {| items := items s; used_items := used |}, g')
               ∧ (items s ≠ [] → ∃ c, r = Some c ∧ c ∈ items s ∧ g' = tl g
                    ∧ (used = used_items s ++ [c] ∧ c ∈ available s
                       ∨ used = [c] ∧ available s = []))
               ∧ (items s = [] → r = None ∧ used = [] ∧ g' = g).
Proof.
  destruct (items s) as [|i0 its] eqn:Hits.
  - exists None, [], g. unfold pull_random_item. rewrite Hits.
    split_and!; done.
  - assert (items s ≠ []) as Hne by by rewrite Hits.
    rewrite <-Hits. destruct (available s) as [|a0 av] eqn:Hav.
    + destruct (pull_exhausted s g Hne Hav) as (c & _ & Hc & ->).
      exists (Some c), [c], (tl g). split_and!; [done| |done].
      intros _. exists c. split_and!; auto.
    + destruct (pull_step s g) as (c & Hc & ->); [by rewrite Hav|].
      exists (Some c), (used_items s ++ [c]), (tl g). split_and!; [done| |done].
      intros _. exists c. rewrite <-Hav. split_and!; auto.
      by apply available_elem in Hc as [? _].
Qed.

(** C1.  For a pool of N distinct items, N consecutive calls of
    [pull_random_item] that start a cycle, with nothing in between,
    all return an item, and the N items returned are a permutation of
    the pool: no value repeats before the pool is exhausted. *)
Theorem pull_n_permutation s g :
  NoDup (items s) → cycle_boundary s →
  ∃ l s' g', pull_n (length (items s)) s g = Ret (Some <$> l, s', g')
             ∧ l ≡ₚ items s.
Proof.
  intros Hnd [Hall|Hnil].
  - destruct (pull_n_available (length (items s)) s g) as (l & s' & g' & Hr & Hl & _);
      [done|by rewrite Hall|].
    exists l, s', g'. by rewrite <-Hall at 2.
  - destruct (decide (items s = [])) as [Hemp|Hne].
    { exists [], s, g. by rewrite Hemp. }
    destruct (pull_exhausted s g Hne Hnil) as (c & _ & Hc & Hpull).
    set (s1 := {| items := items s; used_items := [c] |}) in *.
    assert (items s ≡ₚ c :: available s1) as Hperm.
    { unfold s1. change [c] with ([] ++ [c]). rewrite available_snoc.
      rewrite available_fresh. by apply NoDup_remove_value. }
    destruct (pull_n_available (length (available s1)) s1 (tl g))
      as (l & s' & g' & Hr & Hl & _); [done..|].
    exists (c :: l), s', g'. split; [|by rewrite Hperm, Hl].
    apply Permutation_length in Hperm as ->. simpl.
    rewrite Hpull. simpl. by rewrite Hr.
Qed.

(** Calls that never reset cannot outnumber the available items. *)
Lemma no_auto_reset_bound n : ∀ s g,
  NoDup (items s) → no_auto_reset n s g → (n ≤ length (available s))%nat.
Proof.
  induction n as [|n IH]; intros s g Hnd Hno; [lia|].
  destruct Hno as [Hav Hrest].
  destruct (pull_step s g Hav) as (c & Hc & Hpull). rewrite Hpull in Hrest.
  apply IH in Hrest; [|done].
  pose proof (Permutation_length (available_after_draw s c Hnd Hc)) as Hlen.
  simpl in Hlen. lia.
Qed.

(** The reading of C1 by resets: whatever the state the N calls start in,
    if no call after the first resets [used_items], the first call started
    a cycle, so [pull_n_permutation] above covers every such run. *)
Lemma no_reset_between_starts_cycle s g :
  NoDup (items s) →
  (∀ r s1 g1, pull_random_item s g = Ret (r, s1, g1) →
     no_auto_reset (length (items s) - 1) s1 g1) →
  cycle_boundary s.
Proof.
  intros Hnd Hno. destruct (decide (available s = [])) as [|Hav]; [by right|left].
  destruct (pull_step s g Hav) as (c & Hc & Hpull).
  specialize (Hno _ _ _ Hpull). apply no_auto_reset_bound in Hno; [|done].
  pose proof (Permutation_length (available_after_draw s c Hnd Hc)) as Hlen.
  simpl in Hlen. apply filter_full_length.
  pose proof (length_filter (λ itm, itm ∉ used_items s) (items s)).
  unfold available in Hlen, Hno |- *. simpl in Hlen, Hno. lia.
Qed.

(** C2.  On a non-empty pool whose every value is already in
    [used_items], the call clears [used_items] and hands the full
    [items] list to [random.choice]: the value returned is the choice
    made in [items], it is the only used value afterwards, and every
    item of the pool can be the one returned. *)
Theorem pull_exhausted_redraws_from_pool s g :
  items s ≠ [] → (∀ x, x ∈ items s → x ∈ used_items s) →
  (∃ c, random_choice (items s) g = Ret (c, tl g)
        ∧ pull_random_item s g
          = Ret (Some c, {| items := items s; used_items := [c] |}, tl g))
  ∧ (∀ x, x ∈ items s →
       ∃ g0, pull_random_item s g0
             = Ret (Some x, {| items := items s; used_items := [x] |}, tl g0)).
Proof.
  intros Hne Hall. apply available_nil_iff in Hall. split.
  - destruct (pull_exhausted s g Hne Hall) as (c & Hc & _ & Hp). eauto.
  - intros x Hx. apply list_elem_of_lookup in Hx as [i Hi].
    exists [i]. destruct (pull_exhausted s [i] Hne Hall) as (c & Hc & _ & Hp).
    rewrite Hp. destruct (random_choice_spec (items s) [i] Hne) as (a & Ha & Hr).
    simpl in Ha. rewrite Nat.mod_small in Ha by by eapply lookup_lt_Some.
    congruence.
Qed.

(** C3.  On an empty pool the call clears [used_items] and returns
    [None]; it raises nothing and draws nothing. *)
Theorem pull_empty_pool s g :
  items s = [] →
  pull_random_item s g = Ret (None, {| items := []; used_items := [] |}, g).
Proof. intros Hemp. unfold pull_random_item. by rewrite Hemp. Qed.

(** C5.  Exclusion is by value.  Whatever the number of entries of the
    pool equal to it, a value in [used_items] has no entry among the
    available ones; the value a call returns is in [used_items] after
    the call; and a later call that finds something available (so does
    not reset) keeps it there. *)
Theorem used_value_excludes_all_equal_entries s g :
  (∀ x, x ∈ used_items s → x ∉ available s)
  ∧ (∀ c s' g', pull_random_item s g = Ret (Some c, s', g') →
       c ∈ used_items s' ∧ c ∉ available s')
  ∧ (∀ x r s' g', x ∈ used_items s → available s ≠ [] →
       pull_random_item s g = Ret (r, s', g') →
       x ∈ used_items s' ∧ x ∉ available s').
Proof.
  assert (∀ s0 x, x ∈ used_items s0 → x ∉ available s0) as Hex.
  { intros s0 x Hx Hin. by apply available_elem in Hin as [_ ?]. }
  split_and!; [by apply Hex|..].
  - intros c s' g' Hp.
    destruct (pull_total s g) as (r & used & g1 & Hr & Hne & Hemp).
    rewrite Hr in Hp. injection Hp as -> <- <-.
    destruct (decide (items s = [])) as [E|E]; [by destruct (Hemp E)|].
    destruct (Hne E) as (c' & [= <-] & _ & _ & Hu).
    assert (c ∈ used) as Hin.
    { destruct Hu as [[-> _]|[-> _]]; [apply elem_of_app; right|];
        by apply list_elem_of_singleton. }
    split; [done|]. by apply Hex.
  - intros x r s' g' Hx Hav Hp.
    destruct (pull_step s g Hav) as (c & _ & Hc).
    rewrite Hc in Hp. injection Hp as <- <- <-.
    assert (x ∈ used_items s ++ [c]) as Hin by (apply elem_of_app; by left).
    split; [done|]. by apply Hex.
Qed.

(** C7.  [reset] clears [used_items] and leaves [items] as it is; after
    it every entry of the pool is available again. *)
Theorem reset_clears_used_only s :
  used_items (reset s) = []
  ∧ items (reset s) = items s
  ∧ available (reset s) = items s.
Proof.
  split_and!; [done..|]. apply available_fresh.
Qed.

(** The invariant that carries C8 through a draw: the used values are
    pairwise distinct and all come from the pool. *)
Lemma run_used_distinct_from_pool its (ops : list (op T)) :
  NoDup (used_items (run its ops))
  ∧ ∀ x, x ∈ used_items (run its ops) → x ∈ items (run its ops).
Proof.
  unfold run. induction ops as [|o ops IH] using rev_ind.
  - simpl. split; [apply NoDup_nil_2|]. intros x Hx. by apply elem_of_nil in Hx.
  - rewrite foldl_app. simpl. destruct IH as [Hnd Hsub].
    set (s := foldl apply_op (__init__ its) ops) in *.
    destruct o as [its'|item|g|]; simpl.
    + split; [apply NoDup_nil_2|]. intros x Hx. by apply elem_of_nil in Hx.
    + split; [done|]. intros x Hx. apply elem_of_app. left. by apply Hsub.
    + destruct (pull_total s g) as (r & used & g1 & -> & Hne & Hemp).
      destruct (decide (items s = [])) as [E|E].
      * destruct (Hemp E) as (_ & -> & _). simpl.
        split; [apply NoDup_nil_2|]. intros x Hx. by apply elem_of_nil in Hx.
      * destruct (Hne E) as (c & _ & Hc & _ & [[-> Hav]|[-> _]]); simpl.
        -- apply available_elem in Hav as [_ Hfresh]. split.
           ++ apply NoDup_app. split_and!; [done| |apply NoDup_singleton].
              intros x Hx ->%list_elem_of_singleton. done.
           ++ intros x [?| ->%list_elem_of_singleton]%elem_of_app; auto.
        -- split; [apply NoDup_singleton|].
           by intros x ->%list_elem_of_singleton.
    + split; [apply NoDup_nil_2|]. intros x Hx. by apply elem_of_nil in Hx.
Qed.

(** C8.  After construction and after every operation of a run of
    [init], [add_item], [pull_random_item] and [reset] applied to a
    selector, [used_items] is no longer than [items]. *)
Theorem used_length_le_items_length its (ops : list (op T)) :
  (length (used_items (run its ops)) ≤ length (items (run its ops)))%nat.
Proof.
  destruct (run_used_distinct_from_pool its ops) as [Hnd Hsub].
  apply submseteq_length. by apply NoDup_submseteq.
Qed.

(** C10.  A call of [pull_random_item] returns with the [items] list it
    was given, on the empty pool and on a draw alike. *)
Theorem pull_keeps_items s g :
  ∃ r s' g', pull_random_item s g = Ret (r, s', g') ∧ items s' = items s.
Proof.
  destruct (pull_total s g) as (r & used & g' & Hr & _).
  by exists r, {| items := items s; used_items := used |}, g'.
Qed.
End selector_facts.

(** * The theorems at concrete selectors *)

Section selector_instances.
Import RandomItemSelector.

(** [pull_n_permutation] on the fresh pool A, B, C. *)
Lemma pull_n_permutation_abc :
  NoDup (items sel_abc) ∧ cycle_boundary sel_abc
  ∧ ∃ l s' g', pull_n 3 sel_abc [2; 5; 7] = Ret (Some <$> l, s', g')
               ∧ l ≡ₚ ["A"; "B"; "C"].
Proof.
  assert (NoDup (items sel_abc)) as Hnd by compute_done.
  assert (cycle_boundary sel_abc) as Hcb by (left; reflexivity).
  split_and!; [done..|]. exact (pull_n_permutation sel_abc [2; 5; 7] Hnd Hcb).
Defined.

(** [pull_exhausted_redraws_from_pool] on the pool A, B with both used. *)
Lemma pull_exhausted_redraws_ab :
  (∃ c, random_choice ["A"; "B"] [1] = Ret (c, [])
        ∧ pull_random_item sel_ab_exhausted [1]
          = Ret (Some c, {| items := ["A"; "B"]; used_items := [c] |}, []))
  ∧ (∀ x, x ∈ ["A"; "B"] →
       ∃ g0, pull_random_item sel_ab_exhausted g0
             = Ret (Some x, {| items := ["A"; "B"]; used_items := [x] |}, tl g0)).
Proof.
  apply (pull_exhausted_redraws_from_pool sel_ab_exhausted [1]).
  - discriminate.
  - intros x Hx. simpl in *. apply elem_of_cons in Hx as [->|Hx]; [right; left|].
    apply list_elem_of_singleton in Hx as ->. left.
Defined.

(** [pull_empty_pool] on the selector built from no items. *)
Lemma pull_empty_pool_fresh :
  pull_random_item sel_none [4]
  = Ret (None, {| items := []; used_items := [] |}, [4]).
Proof. apply (pull_empty_pool sel_none [4]). reflexivity. Defined.

(** [used_value_excludes_all_equal_entries] on the pool A, A, B with A
    drawn once: neither entry A is available. *)
Lemma used_value_excludes_both_entries :
  "A" ∈ used_items sel_aab_used ∧ "A" ∉ available sel_aab_used.
Proof.
  assert ("A" ∈ used_items sel_aab_used) as Hin by left.
  split; [done|].
  exact (proj1 (used_value_excludes_all_equal_entries sel_aab_used []) "A" Hin).
Defined.
End selector_instances.

(** * Properties of the generator *)

Section generator_facts.
Import SenseClueGenerator.

(** On the shipped corpora every text is non-empty, hence true. *)
Lemma corpora_truthy :
  Forall (λ c, truthy (Some c) = true) clues
  ∧ Forall (λ c, truthy (Some c) = true) sense_exp.
Proof. split; repeat (constructor; [reflexivity|]); constructor. Qed.

(** C6, as the code has it.  [get_senseclue] draws a clue, then a sense,
    and always returns; its text goes by truth value, not by presence: the
    clue, a space and the sense when both are present and non-empty; the
    one that is present and non-empty when the other is absent or empty;
    the empty string when each is absent or empty. *)
Theorem get_senseclue_by_truth_value (gen : t) (g : rng) :
  ∃ clue sense cs ss g1 g2 out,
    RandomItemSelector.pull_random_item (clue_selector gen) g = Ret (clue, cs, g1)
    ∧ RandomItemSelector.pull_random_item (sense_selector gen) g1 = Ret (sense, ss, g2)
    ∧ get_senseclue gen g
      = Ret (out, {| clue_selector := cs; sense_selector := ss |}, g2)
    ∧ (∀ c s, clue = Some c → sense = Some s → c ≠ "" → s ≠ "" →
         out = c +:+ " " +:+ s)
    ∧ (∀ c, clue = Some c → c ≠ "" → sense = None ∨ sense = Some "" → out = c)
    ∧ (∀ s, sense = Some s → s ≠ "" → clue = None ∨ clue = Some "" → out = s)
    ∧ (clue = None ∨ clue = Some "" → sense = None ∨ sense = Some "" → out = "").
Proof.
  destruct (pull_total (clue_selector gen) g) as (clue & cu & g1 & Hc & _).
  destruct (pull_total (sense_selector gen) g1) as (sense & su & g2 & Hs & _).
  eexists clue, sense, _, _, g1, g2, _. split; [exact Hc|]. split; [exact Hs|].
  split.
  { unfold get_senseclue. rewrite Hc. simpl. rewrite Hs. simpl. reflexivity. }
  assert (∀ c, c ≠ "" → negb (String.eqb c "") = true) as Ht.
  { intros c Hne. apply negb_true_iff, String.eqb_neq. done. }
  unfold truthy. split_and!.
  - intros c s -> -> Hc' Hs'. by rewrite (Ht c), (Ht s).
  - intros c -> Hc' [-> | ->]; by rewrite (Ht c).
  - intros s -> Hs' [-> | ->]; simpl; by rewrite (Ht s).
  - by intros [-> | ->] [-> | ->].
Qed.

(** C6 as stated fails on a clue that is present and empty: both draws
    are present, and the text returned is the sense alone, not the two
    joined by a space. *)
Lemma get_senseclue_present_empty_clue :
  RandomItemSelector.pull_random_item (clue_selector gen_empty_clue) []
  = Ret (Some "", {| RandomItemSelector.items := [""];
                     RandomItemSelector.used_items := [""] |}, [])
  ∧ RandomItemSelector.pull_random_item (sense_selector gen_empty_clue) []
    = Ret (Some "x", {| RandomItemSelector.items := ["x"];
                        RandomItemSelector.used_items := ["x"] |}, [])
  ∧ (∃ gen', get_senseclue gen_empty_clue [] = Ret ("x", gen', []))
  ∧ senseclue_by_presence (Some "") (Some "x") = " x"
  ∧ "x" ≠ senseclue_by_presence (Some "") (Some "x").
Proof.
  split_and!; [reflexivity..| |reflexivity|discriminate].
  eexists. reflexivity.
Qed.

(** On the shipped corpora the two readings agree: whatever was drawn
    before, the singleton returns a clue of [clues], a space and a sense of
    [sense_exp]. *)
Lemma get_senseclue_shipped (gen : t) (g : rng) :
  RandomItemSelector.items (clue_selector gen) = clues →
  RandomItemSelector.items (sense_selector gen) = sense_exp →
  ∃ c s gen' g', c ∈ clues ∧ s ∈ sense_exp
    ∧ get_senseclue gen g = Ret (c +:+ " " +:+ s, gen', g')
    ∧ c +:+ " " +:+ s = senseclue_by_presence (Some c) (Some s).
Proof.
  intros Hc Hs.
  destruct (pull_total (clue_selector gen) g) as (clue & cu & g1 & Hpc & Hcn & _).
  destruct (pull_total (sense_selector gen) g1) as (sense & su & g2 & Hps & Hsn & _).
  destruct Hcn as (c & -> & Hcin & _); [by rewrite Hc|].
  destruct Hsn as (s & -> & Hsin & _); [by rewrite Hs|].
  rewrite Hc in Hcin. rewrite Hs in Hsin.
  destruct corpora_truthy as [Tc Ts].
  rewrite Forall_forall in Tc, Ts.
  eexists c, s, _, g2. split_and!; [done..| |done].
  unfold get_senseclue. rewrite Hpc. simpl. rewrite Hps. simpl.
  pose proof (Tc c Hcin) as E1. pose proof (Ts s Hsin) as E2.
  simpl in E1, E2. rewrite E1, E2. reflexivity.
Qed.
End generator_facts.

(** * Properties of the navigation *)

Lemma bind_run {A B : Type} (m : M A) (f : A → M B) (w : World) :
  (m ≫= f) w = match m w with
               | (Ret a, w') => f a w'
               | (Raise e, w') => (Raise e, w')
               end.
Proof. reflexivity. Qed.

Lemma blind_ret {A : Type} (a : A) : console_blind (mret a).
Proof. intros w1 w2 Hw. by split. Qed.

Lemma blind_bind {A B : Type} (m : M A) (f : A → M B) :
  console_blind m → (∀ a, console_blind (f a)) → console_blind (m ≫= f).
Proof.
  intros Hm Hf w1 w2 Hw. rewrite !bind_run.
  destruct (Hm w1 w2 Hw) as [Hr Hs].
  destruct (m w1) as [[a1|e1] w1'], (m w2) as [[a2|e2] w2'];
    simpl in Hr, Hs; try discriminate.
  - injection Hr as ->. by apply Hf.
  - injection Hr as ->. by split.
Qed.

Lemma blind_print (s : string) : console_blind (print s).
Proof. intros w1 w2 [Hr Hg]. by repeat split. Qed.

Lemma blind_with_rand {A : Type} (f : rng → res (A * rng)) :
  console_blind (with_rand f).
Proof.
  intros w1 w2 [Hr Hg]. unfold with_rand. rewrite Hr.
  destruct (f (rand w2)) as [[a g]|e]; by repeat split.
Qed.

Lemma blind_pull_clue : console_blind pull_clue.
Proof.
  intros w1 w2 [Hr Hg]. unfold pull_clue. rewrite Hr, Hg.
  destruct (RandomItemSelector.pull_random_item _ _) as [[[r sel] g]|e];
    by repeat split.
Qed.

Lemma blind_pull_sense : console_blind pull_sense.
Proof.
  intros w1 w2 [Hr Hg]. unfold pull_sense. rewrite Hr, Hg.
  destruct (RandomItemSelector.pull_random_item _ _) as [[[r sel] g]|e];
    by repeat split.
Qed.

(** Sequences of console-blind steps are taken apart bind by bind. *)
Ltac blind_steps :=
  repeat first
    [ apply blind_ret | apply blind_print | apply blind_with_rand
    | apply blind_pull_clue | apply blind_pull_sense
    | apply blind_bind; [|intros ?] ].

Lemma blind_visit_room (room : Room) : console_blind (visit_room room).
Proof.
  unfold visit_room, run_encounter. destruct (encounter room). blind_steps.
Qed.

(** The default encounter always returns, and returns [CONTINUE]. *)
Lemma visit_room_continue (room : Room) (w : World) :
  ∃ w', visit_room room w = (Ret CONTINUE, w').
Proof.
  unfold visit_room, run_encounter. destruct (encounter room).
  rewrite bind_run.
  destruct (pull_total (SenseClueGenerator.clue_selector (generator w)) (rand w))
    as (clue & cu & g1 & Hc & _).
  unfold pull_clue at 1. rewrite Hc. rewrite bind_run.
  match goal with |- context [pull_sense ?w1] => set (w1' := w1) end.
  destruct (pull_total (SenseClueGenerator.sense_selector (generator w1')) (rand w1'))
    as (sense & su & g2 & Hs & _).
  unfold pull_sense at 1. rewrite Hs. rewrite bind_run.
  eexists. reflexivity.
Qed.
Section castle_facts.
Variable int_of_str : string → option Z.
Import Castle.

Lemma select_door_loop_spec (n : nat) (prompt : string) (lines : list string) :
  ∀ w, ∃ r w', select_door_loop int_of_str n prompt lines w = (r, w')
               ∧ rand w' = rand w ∧ generator w' = generator w
               ∧ (r = Raise EOFError ∨ ∃ d, r = Ret d ∧ (1 ≤ d ≤ Z.of_nat n)%Z).
Proof.
  induction lines as [|line lines IH]; intros w; simpl.
  - eexists _, _. split; [reflexivity|]. simpl. auto.
  - destruct (int_of_str line) as [choice|].
    + case_decide as Hrange.
      * eexists _, _. split; [reflexivity|]. simpl. eauto 6.
      * rewrite bind_run. simpl.
        match goal with |- context [select_door_loop _ _ _ _ ?w1] =>
          destruct (IH w1) as (r & w' & -> & Hr & Hg & Hres) end.
        exists r, w'. simpl in Hr, Hg. auto.
    + rewrite bind_run. simpl.
      match goal with |- context [select_door_loop _ _ _ _ ?w1] =>
        destruct (IH w1) as (r & w' & -> & Hr & Hg & Hres) end.
      exists r, w'. simpl in Hr, Hg. auto.
Qed.

(** The door prompt draws the number of doors and nothing else from
    [random], never touches the generator, and ends with a door or with
    the end of the input. *)
Lemma select_door_spec (self : t) (w : World) :
  ∃ r w', select_door int_of_str self w = (r, w')
          ∧ rand w' = tl (rand w) ∧ generator w' = generator w
          ∧ (r = Raise EOFError ∨ ∃ d, r = Ret d).
Proof.
  unfold select_door. repeat (rewrite bind_run; simpl).
  match goal with |- context [select_door_loop _ ?n ?p ?l ?w1] =>
    destruct (select_door_loop_spec n p l w1) as (r & w' & -> & Hr & Hg & Hres) end.
  exists r, w'. simpl in Hr, Hg. split_and!; [done..|].
  destruct Hres as [->|(d & -> & _)]; eauto.
Qed.

Lemma next_room_unfold (self : t) :
  next_room int_of_str self = (select_door int_of_str self ≫= λ _, entering self).
Proof. reflexivity. Qed.

Lemma blind_entering (self : t) : console_blind (entering self).
Proof.
  unfold entering. apply blind_bind; [apply blind_with_rand|intros [room sel]].
  destruct room as [room|]; blind_steps. apply blind_visit_room.
Qed.

(** What happens behind the door: a room is drawn; a room present is
    visited and the outcome is [CONTINUE], an absent one gives [END]. *)
Lemma entering_spec (self : t) (w : World) :
  ∃ room sel g w',
    RandomItemSelector.pull_random_item (room_selector self) (rand w)
    = Ret (room, sel, g)
    ∧ entering self w
      = (Ret (match room with
              | Some _ => (CONTINUE, {| room_selector := sel |})
              | None => (END, {| room_selector := RandomItemSelector.reset sel |})
              end), w').
Proof.
  destruct (pull_total (room_selector self) (rand w)) as (room & used & g & Hp & _).
  unfold entering. rewrite bind_run. unfold with_rand at 1. rewrite Hp. simpl.
  destruct room as [room|].
  - rewrite bind_run. simpl. rewrite bind_run.
    match goal with |- context [visit_room room ?w1] =>
      destruct (visit_room_continue room w1) as (w2 & ->) end.
    rewrite bind_run. simpl. eexists (Some room), _, g, _. split; reflexivity.
  - rewrite bind_run. simpl. eexists None, _, g, _. split; reflexivity.
Qed.

(** C4, as the code has it.  On a non-empty pool that holds no [None]
    entry, what the caller of [pull_random_item] receives is not [None]: it
    is an entry of the pool, so the call never returns absent.  (On any
    non-empty pool the call draws an entry of the pool; an entry [None] is
    handed back as it is, and the caller cannot tell it from absent.)
    Hence a call of [next_room] on a castle whose room pool is non-empty
    and holds rooms, as the type of the pool says, either stops at the door
    prompt because the input ended, or draws a room and returns
    [CONTINUE]: it never takes the absent-room branch.  That branch is the
    only one that returns [END]: a call that returns [END] had an empty
    room pool. *)
Theorem pool_without_none_never_absent :
  (∀ (A : Type) (eqA : EqDecision A) (s : RandomItemSelector.t (option A)) (g : rng),
     RandomItemSelector.items s ≠ [] →
     None ∉ RandomItemSelector.items s →
     ∃ r s' g' a,
       RandomItemSelector.pull_random_item s g = Ret (r, s', g')
       ∧ returned_value r = Some a
       ∧ Some a ∈ RandomItemSelector.items s)
  ∧ (∀ (T : Type) (eqT : EqDecision T) (s : RandomItemSelector.t T) (g : rng),
       RandomItemSelector.items s ≠ [] →
       ∃ c s' g', RandomItemSelector.pull_random_item s g = Ret (Some c, s', g')
                  ∧ c ∈ RandomItemSelector.items s)
  ∧ (∀ (castle : t) (w : World),
       RandomItemSelector.items (room_selector castle) ≠ [] →
       (∃ w', next_room int_of_str castle w = (Raise EOFError, w'))
       ∨ (∃ room sel g w',
            RandomItemSelector.pull_random_item (room_selector castle) (tl (rand w))
            = Ret (Some room, sel, g)
            ∧ next_room int_of_str castle w
              = (Ret (CONTINUE, {| room_selector := sel |}), w')))
  ∧ (∀ (castle castle' : t) (w w' : World),
       next_room int_of_str castle w = (Ret (END, castle'), w') →
       RandomItemSelector.items (room_selector castle) = []).
Proof.
  assert (∀ (castle : t) (w : World),
    (∃ w', next_room int_of_str castle w = (Raise EOFError, w'))
    ∨ (∃ room sel g w',
         RandomItemSelector.pull_random_item (room_selector castle) (tl (rand w))
         = Ret (room, sel, g)
         ∧ next_room int_of_str castle w
           = (Ret (match room with
                   | Some _ => (CONTINUE, {| room_selector := sel |})
                   | None => (END, {| room_selector := RandomItemSelector.reset sel |})
                   end), w'))) as Hcases.
  { intros castle w. rewrite next_room_unfold, bind_run.
    destruct (select_door_spec castle w) as (r & w1 & -> & Hr & _ & [->|[d ->]]).
    - left. by exists w1.
    - right. destruct (entering_spec castle w1) as (room & sel & g & w' & Hp & He).
      rewrite Hr in Hp. by exists room, sel, g, w'. }
  split_and!.
  - intros A eqA s g Hne Hnone.
    destruct (pull_total s g) as (r & used & g' & Hp & Hsome & _).
    destruct (Hsome Hne) as (c & -> & Hc & _).
    destruct c as [a|]; [|done].
    eexists (Some (Some a)), _, g', a. by split_and!.
  - intros T eqT s g Hne.
    destruct (pull_total s g) as (r & used & g' & Hp & Hsome & _).
    destruct (Hsome Hne) as (c & -> & Hc & _). eauto.
  - intros castle w Hne. destruct (Hcases castle w) as [?|(room & sel & g & w' & Hp & Hn)];
      [by left|right].
    destruct (pull_total (room_selector castle) (tl (rand w)))
      as (r & used & g' & Hp' & Hsome & _).
    destruct (Hsome Hne) as (c & -> & _).
    rewrite Hp' in Hp. injection Hp as <- <- <-.
    eexists c, _, g', w'. split; [exact Hp'|exact Hn].
  - intros castle castle' w w' Hend.
    destruct (Hcases castle w) as [[w1 Hr]|(room & sel & g & w1 & Hp & Hn)];
      [congruence|].
    rewrite Hn in Hend. destruct room as [room|]; [discriminate|].
    destruct (pull_total (room_selector castle) (tl (rand w)))
      as (r & used & g' & Hp' & Hsome & _).
    destruct (decide (RandomItemSelector.items (room_selector castle) = []))
      as [|Hne]; [done|].
    destruct (Hsome Hne) as (c & -> & _). congruence.
Qed.

(** C9.  The door typed at the prompt has no effect on the room entered.
    Two calls of [next_room] on the same castle, from worlds with the same
    state of [random] and the same generator, that both get past the door
    prompt (whatever was typed, and whichever door was opened) return the
    same outcome and leave the same castle, so the same room drawn and
    recorded in [used_items], the same state of [random] and the same
    generator. *)
Theorem door_choice_does_not_affect_room (castle : t) (w1 w2 : World)
    (o1 o2 : EncounterOutcome) (c1 c2 : t) (w1' w2' : World) :
  rand w1 = rand w2 → generator w1 = generator w2 →
  next_room int_of_str castle w1 = (Ret (o1, c1), w1') →
  next_room int_of_str castle w2 = (Ret (o2, c2), w2') →
  o1 = o2 ∧ c1 = c2 ∧ rand w1' = rand w2' ∧ generator w1' = generator w2'.
Proof.
  intros Hr Hg H1 H2. rewrite next_room_unfold, bind_run in H1, H2.
  destruct (select_door_spec castle w1) as (r1 & v1 & E1 & Hr1 & Hg1 & _).
  destruct (select_door_spec castle w2) as (r2 & v2 & E2 & Hr2 & Hg2 & _).
  rewrite E1 in H1. rewrite E2 in H2.
  destruct r1 as [d1|e1]; [|discriminate]. destruct r2 as [d2|e2]; [|discriminate].
  assert (same_play v1 v2) as Hv by (split; congruence).
  destruct (blind_entering castle v1 v2 Hv) as [Hres [Hrand Hgen]].
  rewrite H1, H2 in Hres, Hrand, Hgen. simpl in Hres, Hrand, Hgen.
  injection Hres as -> ->. done.
Qed.
End castle_facts.

(** * The theorems at the shipped castle *)

(** C4 as stated fails on a pool that holds the entry [None]: the pool is
    not empty, the call draws that entry, and the caller receives [None],
    which is absent. *)
Lemma pull_none_item_returns_absent :
  RandomItemSelector.items sel_none_item ≠ []
  ∧ RandomItemSelector.pull_random_item sel_none_item [0]
    = Ret (Some None,
           {| RandomItemSelector.items := [None];
              RandomItemSelector.used_items := [None] |}, [])
  ∧ returned_value (A := string) (Some None) = None.
Proof. split_and!; [discriminate|reflexivity..]. Qed.

(** [pool_without_none_never_absent] on the Optional pool A, B, on the
    pool A, B, C and on the castle of the six shipped rooms. *)
Lemma pool_without_none_never_absent_shipped :
  (∃ r s' g' a,
     RandomItemSelector.pull_random_item sel_optional_ab [1] = Ret (r, s', g')
     ∧ returned_value r = Some a
     ∧ Some a ∈ RandomItemSelector.items sel_optional_ab)
  ∧ (∃ c s' g', RandomItemSelector.pull_random_item sel_abc [1] = Ret (Some c, s', g')
                ∧ c ∈ RandomItemSelector.items sel_abc)
  ∧ ((∃ w', Castle.next_room digit_of_str castle0 (world0 [0; 4; 1; 3] ["1"])
            = (Raise EOFError, w'))
     ∨ (∃ room sel g w',
          RandomItemSelector.pull_random_item (Castle.room_selector castle0) [4; 1; 3]
          = Ret (Some room, sel, g)
          ∧ Castle.next_room digit_of_str castle0 (world0 [0; 4; 1; 3] ["1"])
            = (Ret (CONTINUE, {| Castle.room_selector := sel |}), w'))).
Proof.
  destruct (pool_without_none_never_absent digit_of_str) as (Hopt & Hsel & Hroom & _).
  split_and!.
  - apply (Hopt string _ sel_optional_ab [1]); [discriminate|compute_done].
  - apply (Hsel string _ sel_abc [1]). discriminate.
  - apply (Hroom castle0 (world0 [0; 4; 1; 3] ["1"])). discriminate.
Defined.

(** [door_choice_does_not_affect_room] with two doors on offer: door 1
    typed in one run, door 2 in the other. *)
Lemma door_choice_one_or_two :
  ∃ o1 c1 w1' o2 c2 w2',
    stdin (world0 [0; 4; 1; 3] ["1"]) ≠ stdin (world0 [0; 4; 1; 3] ["2"])
    ∧ Castle.next_room digit_of_str castle0 (world0 [0; 4; 1; 3] ["1"])
      = (Ret (o1, c1), w1')
    ∧ Castle.next_room digit_of_str castle0 (world0 [0; 4; 1; 3] ["2"])
      = (Ret (o2, c2), w2')
    ∧ (o1 = o2 ∧ c1 = c2 ∧ rand w1' = rand w2' ∧ generator w1' = generator w2').
Proof.
  do 6 eexists. split; [discriminate|].
  split; [vm_compute; reflexivity|]. split; [vm_compute; reflexivity|].
  eapply (door_choice_does_not_affect_room digit_of_str castle0
            (world0 [0; 4; 1; 3] ["1"]) (world0 [0; 4; 1; 3] ["2"]));
    vm_compute; reflexivity.
Defined.

(** * Further properties of the selector *)

Section selector_more.
Context {T : Type} `{EqDecision T}.
Import RandomItemSelector.
Implicit Types (s : t T) (g : rng) (c x : T).

(** [add_item] appends without looking at what the pool holds: the new
    entry comes last, and it is available at once unless its value is
    already marked used. *)
Theorem add_item_available s x :
  items (add_item s x) = items s ++ [x]
  ∧ used_items (add_item s x) = used_items s
  ∧ available (add_item s x)
    = available s ++ (if decide (x ∈ used_items s) then [] else [x]).
Proof.
  split_and!; [done..|]. unfold available, add_item. simpl.
  rewrite filter_app. f_equal. case_decide as Hx.
  - by rewrite filter_cons_False, filter_nil by tauto.
  - by rewrite filter_cons_True, filter_nil by done.
Qed.

(** An item added to an exhausted pool is the next one drawn, whatever
    [random] gives, and the draw does not reset [used_items]. *)
Theorem pull_after_add_to_exhausted s x g :
  available s = [] → x ∉ used_items s →
  pull_random_item (add_item s x) g
  = Ret (Some x,
         {| items := items s ++ [x]; used_items := used_items s ++ [x] |},
         tl g).
Proof.
  intros Hav Hx.
  assert (available (add_item s x) = [x]) as Hnew.
  { unfold available, add_item in *. simpl. rewrite filter_app, Hav. simpl.
    by rewrite filter_cons_True, filter_nil by done. }
  destruct (pull_step (add_item s x) g) as (c & Hc & Hp); [by rewrite Hnew|].
  rewrite Hnew in Hc. apply list_elem_of_singleton in Hc as ->. exact Hp.
Qed.

(** While something is available a call returns a value of the pool that
    is not in [used_items], appends it there, and takes one draw from
    [random]: nothing repeats inside a cycle, duplicates in the pool or
    not. *)
Theorem pull_returns_unused s g :
  available s ≠ [] →
  ∃ c, c ∈ items s ∧ (c ∉ used_items s)
       ∧ pull_random_item s g
         = Ret (Some c, {| items := items s; used_items := used_items s ++ [c] |}, tl g).
Proof.
  intros Hav. destruct (pull_step s g Hav) as (c & Hc & Hp).
  apply available_elem in Hc as [Hi Hu]. by exists c.
Qed.

Lemma remove_dups_remove_value (l : list T) c :
  c ∈ l → remove_dups l ≡ₚ c :: remove_dups (filter (λ x, x ≠ c) l).
Proof.
  intros Hc. apply NoDup_Permutation; [apply NoDup_remove_dups| |].
  - apply NoDup_cons. split; [|apply NoDup_remove_dups].
    rewrite elem_of_remove_dups, list_elem_of_filter. tauto.
  - intros x. rewrite elem_of_cons, !elem_of_remove_dups, list_elem_of_filter.
    destruct (decide (x = c)) as [->|Hne].
    + split; [by left | done].
    + split; [by right | by intros [?|[_ ?]]].
Qed.

(** As many calls as there are distinct available values return these
    values, each once, and leave nothing available. *)
Lemma pull_n_distinct_available k : ∀ s g,
  length (remove_dups (available s)) = k →
  ∃ l s' g', pull_n k s g = Ret (Some <$> l, s', g')
             ∧ l ≡ₚ remove_dups (available s)
             ∧ items s' = items s ∧ used_items s' = used_items s ++ l
             ∧ available s' = [].
Proof.
  induction k as [|k IH]; intros s g Hlen.
  - exists [], s, g. apply nil_length_inv in Hlen.
    assert (available s = []) as Hav.
    { destruct (available s) as [|a l] eqn:E; [done|].
      assert (a ∈ remove_dups (a :: l)) as Hin by (apply elem_of_remove_dups; left).
      rewrite Hlen in Hin. by apply elem_of_nil in Hin. }
    rewrite Hav. simpl. by rewrite app_nil_r.
  - assert (available s ≠ []) as Hav by (intros E; by rewrite E in Hlen).
    destruct (pull_step s g Hav) as (c & Hc & Hpull).
    set (s1 := {| items := items s; used_items := used_items s ++ [c] |}) in *.
    assert (available s1 = filter (λ x, x ≠ c) (available s)) as Hs1.
    { unfold s1. rewrite available_snoc. by destruct s. }
    pose proof (remove_dups_remove_value (available s) c Hc) as Hperm.
    rewrite <-Hs1 in Hperm.
    destruct (IH s1 (tl g)) as (l & s' & g' & Hrun & Hl & Hits & Hused & Hnone).
    { apply Permutation_length in Hperm. simpl in Hperm. lia. }
    exists (c :: l), s', g'. split_and!; [|by rewrite Hperm, Hl|done| |done].
    + simpl. rewrite Hpull. simpl. by rewrite Hrun.
    + rewrite Hused. unfold s1. simpl. by rewrite <-app_assoc.
Qed.

(** A cycle on any pool.  After [reset] (or construction) as many calls as
    the pool has distinct values return exactly these values, each once,
    also when the pool holds a value several times; [used_items] then holds
    the values drawn, in order, and nothing is available. *)
Theorem pull_cycle_distinct_values s g :
  ∃ l s' g',
    pull_n (length (remove_dups (items s))) (reset s) g = Ret (Some <$> l, s', g')
    ∧ l ≡ₚ remove_dups (items s)
    ∧ items s' = items s ∧ used_items s' = l ∧ available s' = [].
Proof.
  assert (available (reset s) = items s) as Hfresh by apply available_fresh.
  destruct (pull_n_distinct_available (length (remove_dups (items s))) (reset s) g)
    as (l & s' & g' & Hrun & Hl & Hits & Hused & Hnone); [by rewrite Hfresh|].
  rewrite Hfresh in Hl. by exists l, s', g'.
Qed.

(** The call after a full cycle.  Once a cycle on a non-empty pool is
    over, the next call hands the whole [items] list to [random.choice]
    again and forgets the cycle: the value it returns is the only one in
    [used_items]. *)
Theorem pull_after_cycle_redraws s g :
  items s ≠ [] →
  ∃ l s' g' c,
    pull_n (length (remove_dups (items s))) (reset s) g = Ret (Some <$> l, s', g')
    ∧ random_choice (items s) g' = Ret (c, tl g')
    ∧ pull_random_item s' g'
      = Ret (Some c, {| items := items s; used_items := [c] |}, tl g').
Proof.
  intros Hne.
  destruct (pull_n_distinct_available (length (remove_dups (items s))) (reset s) g)
    as (l & s' & g' & Hrun & _ & Hits & _ & Hnone).
  { assert (available (reset s) = items s) as -> by apply available_fresh. done. }
  simpl in Hits.
  destruct (pull_exhausted s' g') as (c & Hc & _ & Hp); [by rewrite Hits|done|].
  rewrite Hits in Hc, Hp. by exists l, s', g', c.
Qed.

(** Whatever was done to a selector since its construction, [used_items]
    holds no value twice and only values of the pool. *)
Theorem used_items_distinct_and_from_pool its (ops : list (op T)) :
  NoDup (used_items (run its ops))
  ∧ ∀ x, x ∈ used_items (run its ops) → x ∈ items (run its ops).
Proof. apply run_used_distinct_from_pool. Qed.
End selector_more.

(** * Further properties of the generator and of the encounter *)

Section generator_more.
Import SenseClueGenerator.

(** When both pools are non-empty and hold no empty text, [get_senseclue]
    returns a clue of the clue pool, one space and a sense of the sense
    pool, so never the empty string; it takes two draws from [random], the
    clue's first. *)
Theorem get_senseclue_joins_nonempty (gen : t) (g : rng) :
  RandomItemSelector.items (clue_selector gen) ≠ [] →
  RandomItemSelector.items (sense_selector gen) ≠ [] →
  "" ∉ RandomItemSelector.items (clue_selector gen) →
  "" ∉ RandomItemSelector.items (sense_selector gen) →
  ∃ c s gen',
    c ∈ RandomItemSelector.items (clue_selector gen)
    ∧ s ∈ RandomItemSelector.items (sense_selector gen)
    ∧ get_senseclue gen g = Ret (c +:+ " " +:+ s, gen', tl (tl g))
    ∧ c +:+ " " +:+ s ≠ "".
Proof.
  intros Hc Hs Hce Hse.
  destruct (pull_total (clue_selector gen) g) as (clue & cu & g1 & Hpc & Hcn & _).
  destruct (pull_total (sense_selector gen) g1) as (sense & su & g2 & Hps & Hsn & _).
  destruct (Hcn Hc) as (c & -> & Hcin & -> & _).
  destruct (Hsn Hs) as (s & -> & Hsin & -> & _).
  assert (c ≠ "") as Hc0 by (intros ->; done).
  assert (s ≠ "") as Hs0 by (intros ->; done).
  eexists c, s, _. split_and!; [done..| |].
  - unfold get_senseclue. rewrite Hpc. simpl. rewrite Hps. simpl.
    apply String.eqb_neq in Hc0, Hs0. by rewrite Hc0, Hs0.
  - destruct c; [done|discriminate].
Qed.

(** The default encounter prints what [get_senseclue] would have
    returned: its fallback draws from the same two selectors in the same
    order and composes the text the same way.  It writes that text as one
    line, leaves the generator and [random] as [get_senseclue] would, reads
    nothing, and reports [CONTINUE]. *)
Theorem run_encounter_prints_senseclue (e : Encounter) (w : World) :
  ∃ out gen' g',
    get_senseclue (generator w) (rand w) = Ret (out, gen', g')
    ∧ run_encounter e w
      = (Ret CONTINUE,
         {| rand := g'; stdin := stdin w; stdout := stdout w ++ [out +:+ newline];
            generator := gen' |}).
Proof.
  destruct e.
  destruct (pull_total (clue_selector (generator w)) (rand w))
    as (clue & cu & g1 & Hpc & _).
  destruct (pull_total (sense_selector (generator w)) g1)
    as (sense & su & g2 & Hps & _).
  eexists _, _, g2. split.
  - unfold get_senseclue. rewrite Hpc. simpl. rewrite Hps. simpl. reflexivity.
  - unfold run_encounter. rewrite bind_run. unfold pull_clue at 1. rewrite Hpc.
    rewrite bind_run. unfold pull_sense at 1. simpl. rewrite Hps.
    rewrite bind_run. reflexivity.
Qed.
End generator_more.

(** [get_senseclue_joins_nonempty] on the singleton as [__new__] builds
    it from the shipped corpora. *)
Lemma get_senseclue_joins_shipped :
  ∃ c s gen',
    c ∈ clues ∧ s ∈ sense_exp
    ∧ SenseClueGenerator.get_senseclue (SenseClueGenerator.__new__ None).1 [3; 8]
      = Ret (c +:+ " " +:+ s, gen', [])
    ∧ c +:+ " " +:+ s ≠ "".
Proof.
  apply (get_senseclue_joins_nonempty (SenseClueGenerator.__new__ None).1 [3; 8]);
    [discriminate|discriminate|compute_done|compute_done].
Defined.

(** * Further properties of the navigation *)

Lemma keeps_ret {A : Type} (a : A) : keeps_input (mret a).
Proof. by intros w. Qed.

Lemma keeps_bind {A B : Type} (m : M A) (f : A → M B) :
  keeps_input m → (∀ a, keeps_input (f a)) → keeps_input (m ≫= f).
Proof.
  intros Hm Hf w. rewrite bind_run. specialize (Hm w).
  destruct (m w) as [[a|e] w1]; simpl in *; [|done]. by rewrite Hf.
Qed.

Lemma keeps_print (s : string) : keeps_input (print s).
Proof. by intros w. Qed.

Lemma keeps_with_rand {A : Type} (f : rng → res (A * rng)) :
  keeps_input (with_rand f).
Proof. intros w. unfold with_rand. by destruct (f (rand w)) as [[a g]|e]. Qed.

Lemma keeps_pull_clue : keeps_input pull_clue.
Proof.
  intros w. unfold pull_clue.
  by destruct (RandomItemSelector.pull_random_item _ _) as [[[r sel] g]|e].
Qed.

Lemma keeps_pull_sense : keeps_input pull_sense.
Proof.
  intros w. unfold pull_sense.
  by destruct (RandomItemSelector.pull_random_item _ _) as [[[r sel] g]|e].
Qed.

Ltac keeps_steps :=
  repeat first
    [ apply keeps_ret | apply keeps_print | apply keeps_with_rand
    | apply keeps_pull_clue | apply keeps_pull_sense
    | apply keeps_bind; [|intros ?] ].

Lemma keeps_visit_room (room : Room) : keeps_input (visit_room room).
Proof. unfold visit_room, run_encounter. destruct (encounter room). keeps_steps. Qed.

Lemma keeps_entering (self : Castle.t) : keeps_input (Castle.entering self).
Proof.
  unfold Castle.entering. apply keeps_bind; [apply keeps_with_rand|intros [room sel]].
  destruct room as [room|]; keeps_steps. apply keeps_visit_room.
Qed.

(** The number of doors is 2, 3 or 4. *)
Lemma randint_2_4_bounds (g : rng) :
  (2 ≤ (random_randint 2 4 g).1 ≤ 4)%nat.
Proof.
  unfold random_randint, randbelow. cbn [fst].
  pose proof (Nat.mod_upper_bound (hd 0 g) (4 - 2 + 1)). simpl in *. lia.
Qed.

Section navigation_more.
Variable int_of_str : string → option Z.
Import Castle.

(** The world in which the prompt loop of [select_door] starts. *)
Lemma select_door_unfold (self : t) (w : World) :
  let n := (random_randint 2 4 (rand w)).1 in
  select_door int_of_str self w
  = select_door_loop int_of_str n
      ("Choose a door (1-" +:+ pretty n +:+ "): ") (stdin w)
      {| rand := tl (rand w); stdin := stdin w;
         stdout := stdout w ++ [(newline +:+ str_mul "=" 40) +:+ newline;
                                ("There are " +:+ pretty n +:+ " doors before you.")
                                +:+ newline];
         generator := generator w |}.
Proof.
  unfold select_door, with_rand, print, write, pending_input.
  unfold random_randint, randbelow.
  repeat (rewrite bind_run; cbv beta iota; cbn [rand stdin stdout generator fst snd]).
  by rewrite <-app_assoc.
Qed.

Lemma select_door_loop_accepts (n : nat) (prompt : string)
    (rejected : list string) (line : string) (rest : list string) (d : Z) :
  Forall (λ l, door_choice int_of_str n l = None) rejected →
  door_choice int_of_str n line = Some d →
  ∀ w, ∃ w', select_door_loop int_of_str n prompt (rejected ++ line :: rest) w
             = (Ret d, w')
             ∧ stdin w' = rest ∧ rand w' = rand w ∧ generator w' = generator w.
Proof.
  intros Hrej Hline. induction Hrej as [|l rejected Hl _ IH]; intros w; simpl.
  - unfold door_choice in Hline. destruct (int_of_str line) as [choice|]; [|done].
    case_decide; [|done]. injection Hline as ->.
    eexists. split; [reflexivity|]. done.
  - unfold door_choice in Hl. destruct (int_of_str l) as [choice|].
    + case_decide; [done|]. rewrite bind_run. simpl.
      match goal with |- context [select_door_loop _ _ _ _ ?w1] =>
        destruct (IH w1) as (w' & -> & ? & ? & ?) end.
      by exists w'.
    + rewrite bind_run. simpl.
      match goal with |- context [select_door_loop _ _ _ _ ?w1] =>
        destruct (IH w1) as (w' & -> & ? & ? & ?) end.
      by exists w'.
Qed.

Lemma select_door_loop_runs_out (n : nat) (prompt : string) (lines : list string) :
  Forall (λ l, door_choice int_of_str n l = None) lines →
  ∀ w, ∃ w', select_door_loop int_of_str n prompt lines w = (Raise EOFError, w')
             ∧ stdin w' = [].
Proof.
  intros Hrej. induction Hrej as [|l lines Hl _ IH]; intros w; simpl.
  - eexists. by split.
  - unfold door_choice in Hl. destruct (int_of_str l) as [choice|].
    + case_decide; [done|]. rewrite bind_run. simpl.
      match goal with |- context [select_door_loop _ _ _ _ ?w1] =>
        destruct (IH w1) as (w' & -> & ?) end.
      by exists w'.
    + rewrite bind_run. simpl.
      match goal with |- context [select_door_loop _ _ _ _ ?w1] =>
        destruct (IH w1) as (w' & -> & ?) end.
      by exists w'.
Qed.

(** A door costs at least one line; the end of the input leaves none. *)
Lemma select_door_loop_consumes (n : nat) (prompt : string) (lines : list string) :
  ∀ w, ∃ r w', select_door_loop int_of_str n prompt lines w = (r, w')
               ∧ (r = Raise EOFError ∧ stdin w' = []
                  ∨ ∃ d, r = Ret d ∧ (length (stdin w') < length lines)%nat).
Proof.
  induction lines as [|line lines IH]; intros w; simpl.
  - eexists _, _. split; [reflexivity|]. by left.
  - destruct (int_of_str line) as [choice|].
    + case_decide as Hrange.
      * eexists _, _. split; [reflexivity|]. right. exists choice. simpl. split; [done|lia].
      * rewrite bind_run. simpl.
        match goal with |- context [select_door_loop _ _ _ _ ?w1] =>
          destruct (IH w1) as (r & w' & -> & Hres) end.
        exists r, w'. split; [done|].
        destruct Hres as [?|(d & ? & ?)]; [by left|right]. exists d. split; [done|lia].
    + rewrite bind_run. simpl.
      match goal with |- context [select_door_loop _ _ _ _ ?w1] =>
        destruct (IH w1) as (r & w' & -> & Hres) end.
      exists r, w'. split; [done|].
      destruct Hres as [?|(d & ? & ?)]; [by left|right]. exists d. split; [done|lia].
Qed.

(** [select_door] opens the door of the first line that names one of the
    doors on offer: the lines before it are read and rejected, the lines
    after it stay unread.  The door is between 1 and 4, [random] is one
    draw further, the generator is untouched. *)
Theorem select_door_first_valid_line (self : t) (w : World)
    (rejected : list string) (line : string) (rest : list string) (d : Z) :
  stdin w = rejected ++ line :: rest →
  Forall (λ l, door_choice int_of_str (random_randint 2 4 (rand w)).1 l = None) rejected →
  door_choice int_of_str (random_randint 2 4 (rand w)).1 line = Some d →
  ∃ w', select_door int_of_str self w = (Ret d, w')
        ∧ stdin w' = rest ∧ (1 ≤ d ≤ 4)%Z
        ∧ rand w' = tl (rand w) ∧ generator w' = generator w.
Proof.
  intros Hin Hrej Hline. rewrite select_door_unfold. cbv zeta. rewrite Hin.
  match goal with |- context [select_door_loop _ ?n ?p _ ?w1] =>
    destruct (select_door_loop_accepts n p rejected line rest d Hrej Hline w1)
      as (w' & -> & ? & ? & ?) end.
  exists w'. split; [done|]. split; [done|]. split; [|by split].
  pose proof (randint_2_4_bounds (rand w)) as Hn.
  unfold door_choice in Hline. destruct (int_of_str line) as [choice|]; [|done].
  case_decide; [|done]. injection Hline as ->. lia.
Qed.

(** When no line left in the input names a door on offer, [select_door]
    reads them all, rejecting each, and [EOFError] leaves it. *)
Theorem select_door_end_of_input (self : t) (w : World) :
  Forall (λ l, door_choice int_of_str (random_randint 2 4 (rand w)).1 l = None) (stdin w) →
  ∃ w', select_door int_of_str self w = (Raise EOFError, w') ∧ stdin w' = [].
Proof.
  intros Hrej. rewrite select_door_unfold. cbv zeta.
  match goal with |- context [select_door_loop _ ?n ?p _ ?w1] =>
    destruct (select_door_loop_runs_out n p (stdin w) Hrej w1) as (w' & -> & ?) end.
  by exists w'.
Qed.

(** The ways a call of [next_room] can end, with what it read. *)
Lemma next_room_outcomes (self : t) (w : World) :
  (∃ w', next_room int_of_str self w = (Raise EOFError, w') ∧ stdin w' = [])
  ∨ (∃ room sel g w',
       RandomItemSelector.pull_random_item (room_selector self) (tl (rand w))
       = Ret (room, sel, g)
       ∧ next_room int_of_str self w
         = (Ret (match room with
                 | Some _ => (CONTINUE, {| room_selector := sel |})
                 | None => (END, {| room_selector := RandomItemSelector.reset sel |})
                 end), w')
       ∧ (length (stdin w') < length (stdin w))%nat).
Proof.
  rewrite next_room_unfold, bind_run, select_door_unfold. cbv zeta.
  match goal with |- context [select_door_loop _ ?n ?p ?l ?w1] =>
    destruct (select_door_loop_consumes n p l w1) as (r & w1' & Hloop & Hres);
    destruct (select_door_loop_spec int_of_str n p l w1) as (r' & w1'' & Hloop' & Hr & _)
  end.
  rewrite Hloop in Hloop'. injection Hloop' as <- <-. rewrite Hloop.
  destruct Hres as [[-> Hnil]|(d & -> & Hlt)].
  - left. by exists w1'.
  - right. destruct (entering_spec self w1') as (room & sel & g & w' & Hp & He).
    rewrite Hr in Hp. simpl in Hp. exists room, sel, g, w'. split_and!; [done..|].
    pose proof (keeps_entering self w1') as Hk. rewrite He in Hk. simpl in Hk.
    by rewrite Hk.
Qed.

(** While some room has not been entered in the current cycle, a call of
    [next_room] that gets past the door prompt enters one of those rooms,
    records it last in [used_items], keeps the pool, and reports
    [CONTINUE]. *)
Theorem next_room_enters_unvisited (self self' : t) (w w' : World)
    (o : EncounterOutcome) :
  RandomItemSelector.available (room_selector self) ≠ [] →
  next_room int_of_str self w = (Ret (o, self'), w') →
  ∃ room, room ∈ RandomItemSelector.available (room_selector self)
          ∧ room_selector self'
            = {| RandomItemSelector.items := RandomItemSelector.items (room_selector self);
                 RandomItemSelector.used_items :=
                   RandomItemSelector.used_items (room_selector self) ++ [room] |}
          ∧ o = CONTINUE.
Proof.
  intros Hav Hret.
  destruct (next_room_outcomes self w) as [(w1 & Hr & _)|(room & sel & g & w1 & Hp & Hn & _)];
    [congruence|].
  destruct (pull_step (room_selector self) (tl (rand w)) Hav) as (c & Hc & Hp').
  rewrite Hp' in Hp. injection Hp as <- <- <-.
  rewrite Hn in Hret. injection Hret as <- <- <-. by exists c.
Qed.
End navigation_more.

Section tour.
Variable int_of_str : string → option Z.
Import Castle.

(** [k] visits that all get past the door prompt, with at least [k] rooms
    not yet entered in the cycle: the rooms entered are [k] of those. *)
Lemma next_room_n_draws (k : nat) : ∀ (self self' : t) (w w' : World)
    (os : list EncounterOutcome),
  NoDup (RandomItemSelector.items (room_selector self)) →
  (k ≤ length (RandomItemSelector.available (room_selector self)))%nat →
  next_room_n int_of_str k self w = (Ret (os, self'), w') →
  ∃ l, RandomItemSelector.used_items (room_selector self')
       = RandomItemSelector.used_items (room_selector self) ++ l
       ∧ RandomItemSelector.available (room_selector self)
         ≡ₚ l ++ RandomItemSelector.available (room_selector self')
       ∧ length l = k
       ∧ RandomItemSelector.items (room_selector self')
         = RandomItemSelector.items (room_selector self)
       ∧ os = replicate k CONTINUE.
Proof.
  induction k as [|k IH]; intros self self' w w' os Hnd Hk Hrun.
  - injection Hrun as <- <- <-. exists []. by rewrite app_nil_r.
  - simpl in Hrun. rewrite bind_run in Hrun.
    destruct (next_room_outcomes int_of_str self w)
      as [(w1 & Hr & _)|(room & sel & g & w1 & Hp & Hn & _)].
    { rewrite Hr in Hrun. discriminate. }
    assert (RandomItemSelector.available (room_selector self) ≠ []) as Hav.
    { intros E. rewrite E in Hk. simpl in Hk. lia. }
    destruct (pull_step (room_selector self) (tl (rand w)) Hav) as (c & Hc & Hp').
    rewrite Hp' in Hp. injection Hp as <- <- <-.
    rewrite Hn in Hrun. cbv beta iota in Hrun. rewrite bind_run in Hrun.
    match type of Hrun with context [next_room_n _ _ ?c1 _] => set (self1 := c1) in * end.
    destruct (next_room_n int_of_str k self1 w1) as [[[os1 self2]|e] w2] eqn:Hk1;
      [|discriminate].
    injection Hrun as <- <- <-.
    pose proof (available_after_draw (room_selector self) c Hnd Hc) as Hperm.
    destruct (IH self1 self2 w1 w2 os1) as (l & Hused & Hl & Hlen & Hits & Hos);
      [done| |done|].
    { apply Permutation_length in Hperm. unfold self1. simpl in *. lia. }
    exists (c :: l). unfold self1 in *. simpl in *. split_and!.
    + by rewrite Hused, <-app_assoc.
    + by rewrite Hperm, Hl.
    + by rewrite Hlen.
    + done.
    + by rewrite Hos.
Qed.

(** A tour of the castle.  From a castle whose rooms are pairwise distinct
    and none of which is marked used, as many visits as there are rooms,
    all past the door prompt, enter every room exactly once: the rooms
    recorded in [used_items] are a permutation of the pool, and every visit
    reports [CONTINUE]. *)
Theorem tour_enters_every_room_once (self self' : t) (w w' : World)
    (os : list EncounterOutcome) :
  NoDup (RandomItemSelector.items (room_selector self)) →
  RandomItemSelector.used_items (room_selector self) = [] →
  next_room_n int_of_str (length (RandomItemSelector.items (room_selector self))) self w
  = (Ret (os, self'), w') →
  RandomItemSelector.used_items (room_selector self')
  ≡ₚ RandomItemSelector.items (room_selector self)
  ∧ RandomItemSelector.items (room_selector self')
    = RandomItemSelector.items (room_selector self)
  ∧ os = replicate (length (RandomItemSelector.items (room_selector self))) CONTINUE.
Proof.
  intros Hnd Hfresh Hrun.
  assert (RandomItemSelector.available (room_selector self)
          = RandomItemSelector.items (room_selector self)) as Hav.
  { destruct (room_selector self) as [its used]. simpl in Hfresh. subst used.
    apply available_fresh. }
  destruct (next_room_n_draws (length (RandomItemSelector.items (room_selector self)))
              self self' w w' os Hnd) as (l & Hused & Hl & Hlen & Hits & Hos);
    [by rewrite Hav|done|].
  rewrite Hfresh in Hused. simpl in Hused. rewrite Hav in Hl.
  split_and!; [|done..].
  pose proof (Permutation_length Hl) as Hlens. rewrite length_app, Hlen in Hlens.
  assert (RandomItemSelector.available (room_selector self') = []) as Hnone.
  { apply nil_length_inv. lia. }
  rewrite Hnone, app_nil_r in Hl. by rewrite Hused, Hl.
Qed.

(** In a castle without rooms every door leads to the end: a call of
    [next_room] that gets past the door prompt reports [END] and leaves the
    empty selector with nothing marked used. *)
Theorem next_room_without_rooms_ends (self self' : t) (w w' : World)
    (o : EncounterOutcome) :
  RandomItemSelector.items (room_selector self) = [] →
  next_room int_of_str self w = (Ret (o, self'), w') →
  o = END
  ∧ room_selector self'
    = {| RandomItemSelector.items := []; RandomItemSelector.used_items := [] |}.
Proof.
  intros Hemp Hret.
  destruct (next_room_outcomes int_of_str self w)
    as [(w1 & Hr & _)|(room & sel & g & w1 & Hp & Hn & _)]; [congruence|].
  destruct (pull_total (room_selector self) (tl (rand w)))
    as (r & used & g' & Hp' & _ & Hnone).
  destruct (Hnone Hemp) as (-> & -> & _).
  rewrite Hp' in Hp. injection Hp as <- <- <-.
  rewrite Hn in Hret. injection Hret as <- <- <-. by rewrite Hemp.
Qed.
End tour.

(** * Properties of the game loop *)

Section restart_prompt.
Variable strip_lower : string → string.
Import Game.

Lemma restart_loop_consumes (lines : list string) :
  ∀ w, ∃ r w', restart_loop strip_lower lines w = (r, w')
               ∧ (r = Raise EOFError ∧ stdin w' = []
                  ∨ ∃ b, r = Ret b ∧ (length (stdin w') < length lines)%nat).
Proof.
  induction lines as [|line lines IH]; intros w; simpl.
  - eexists _, _. split; [reflexivity|]. by left.
  - case_decide.
    { eexists _, _. split; [reflexivity|]. right. exists true. simpl. split; [done|lia]. }
    case_decide.
    { eexists _, _. split; [reflexivity|]. right. exists false. simpl. split; [done|lia]. }
    rewrite bind_run. simpl.
    match goal with |- context [restart_loop _ _ ?w1] =>
      destruct (IH w1) as (r & w' & -> & Hres) end.
    exists r, w'. split; [done|].
    destruct Hres as [?|(b & ? & ?)]; [by left|right]. exists b. split; [done|lia].
Qed.

(** The restart prompt goes by the first line that, stripped and lowered,
    is one of y, yes, n, no: the lines before it are read and rejected,
    the lines after it stay unread; y and yes restart, n and no end the
    game.  Neither [random] nor the generator is touched. *)
Theorem restart_prompt_first_answer (rejected : list string) (line : string)
    (rest : list string) (w : World) :
  Forall (λ l, strip_lower l ∉ ["y"; "yes"; "n"; "no"]) rejected →
  strip_lower line ∈ ["y"; "yes"; "n"; "no"] →
  ∃ w', restart_loop strip_lower (rejected ++ line :: rest) w
        = (Ret (bool_decide (strip_lower line ∈ ["y"; "yes"])), w')
        ∧ stdin w' = rest ∧ rand w' = rand w ∧ generator w' = generator w.
Proof.
  intros Hrej Hline. revert w.
  induction Hrej as [|l rejected Hl _ IH]; intros w; cbn [restart_loop app].
  - destruct (decide (strip_lower line ∈ ["y"; "yes"])) as [Hy|Hy].
    { rewrite bool_decide_eq_true_2 by done. eexists. split; [reflexivity|]. done. }
    destruct (decide (strip_lower line ∈ ["n"; "no"])) as [Hn|Hn].
    { rewrite bool_decide_eq_false_2 by done. eexists. split; [reflexivity|]. done. }
    exfalso. rewrite list_elem_of_In in Hline, Hy, Hn. simpl in *. tauto.
  - destruct (decide (strip_lower l ∈ ["y"; "yes"])) as [Hy|Hy].
    { exfalso. apply Hl. rewrite list_elem_of_In in Hy |- *. simpl in *. tauto. }
    destruct (decide (strip_lower l ∈ ["n"; "no"])) as [Hn|Hn].
    { exfalso. apply Hl. rewrite list_elem_of_In in Hn |- *. simpl in *. tauto. }
    rewrite bind_run. cbn [print write]. cbv beta iota.
    match goal with |- context [restart_loop _ _ ?w1] =>
      destruct (IH w1) as (w' & -> & ? & ? & ?) end.
    by exists w'.
Qed.

End restart_prompt.

Section game_facts.
Variable int_of_str : string → option Z.
Variable strip_lower : string → string.
Import Game.

Lemma play_loop_S (fuel : nat) (castle : Castle.t) (w : World) :
  play_loop int_of_str strip_lower (S fuel) castle w
  = match Castle.next_room int_of_str castle w with
    | (Raise e, w) => (Escaped e, castle, w)
    | (Ret (CONTINUE, castle), w) => play_loop int_of_str strip_lower fuel castle w
    | (Ret (END, castle), w) =>
        match Castle.reset castle w with
        | (Raise e, w) => (Escaped e, castle, w)
        | (Ret castle, w) =>
            match (_ ← print (newline +:+ "Game Over" +:+ newline);
                   lines ← pending_input;
                   restart_loop strip_lower lines) w with
            | (Raise e, w) => (Escaped e, castle, w)
            | (Ret true, w) => play_loop int_of_str strip_lower fuel castle w
            | (Ret false, w) => (Returned, castle, w)
            end
        end
    end.
Proof. reflexivity. Qed.

Lemma castle_reset_run (castle : Castle.t) (w : World) :
  Castle.reset castle w
  = (Ret {| Castle.room_selector := RandomItemSelector.reset (Castle.room_selector castle) |},
     {| rand := rand w; stdin := stdin w;
        stdout := stdout w
                  ++ ["Room selector has been reset; all rooms are available again."
                      +:+ newline];
        generator := generator w |}).
Proof. reflexivity. Qed.

Lemma game_over_run (w : World) :
  (_ ← print (newline +:+ "Game Over" +:+ newline);
   lines ← pending_input;
   restart_loop strip_lower lines) w
  = restart_loop strip_lower (stdin w)
      {| rand := rand w; stdin := stdin w;
         stdout := stdout w ++ [(newline +:+ "Game Over" +:+ newline) +:+ newline];
         generator := generator w |}.
Proof. reflexivity. Qed.

(** With more fuel than lines to read the loop ends by a [return] or by
    the end of the input, never otherwise; the pool is the one it started
    with. *)
Lemma play_loop_ends (fuel : nat) : ∀ (castle : Castle.t) (w : World),
  (length (stdin w) < fuel)%nat →
  ∃ castle' w',
    (play_loop int_of_str strip_lower fuel castle w = (Returned, castle', w')
     ∨ play_loop int_of_str strip_lower fuel castle w = (Escaped EOFError, castle', w')
       ∧ stdin w' = [])
    ∧ RandomItemSelector.items (Castle.room_selector castle')
      = RandomItemSelector.items (Castle.room_selector castle).
Proof.
  induction fuel as [|fuel IH]; intros castle w Hfuel; [lia|].
  rewrite play_loop_S.
  destruct (next_room_outcomes int_of_str castle w)
    as [(w1 & -> & Hnil)|(room & sel & g & w1 & Hp & -> & Hlt)].
  { exists castle, w1. split; [right|]; done. }
  destruct (pull_total (Castle.room_selector castle) (tl (rand w)))
    as (r & used & g' & Hp' & _).
  rewrite Hp' in Hp. injection Hp as <- <- <-.
  destruct r as [room|].
  - destruct (IH {| Castle.room_selector :=
                      {| RandomItemSelector.items :=
                           RandomItemSelector.items (Castle.room_selector castle);
                         RandomItemSelector.used_items := used |} |} w1)
      as (castle' & w' & Hend & Hits); [lia|].
    exists castle', w'. split; [exact Hend|exact Hits].
  - cbv beta iota. rewrite castle_reset_run. cbv beta iota.
    rewrite game_over_run. cbn [stdin].
    match goal with |- context [restart_loop _ ?l ?w2] =>
      destruct (restart_loop_consumes strip_lower l w2) as (r & w3 & -> & Hres) end.
    destruct Hres as [[-> Hnil]|(b & -> & Hlt')].
    + eexists _, w3. split; [right; split; [reflexivity|done]|done].
    + destruct b.
      * match goal with |- context [play_loop _ _ fuel ?c w3] =>
          destruct (IH c w3) as (castle' & w' & Hend & Hits); [lia|] end.
        exists castle', w'. split; [exact Hend|exact Hits].
      * eexists _, w3. split; [left; reflexivity|done].
Qed.

(** While the pool has rooms the loop can only end by the end of the
    input. *)
Lemma play_loop_with_rooms (fuel : nat) : ∀ (castle : Castle.t) (w : World),
  RandomItemSelector.items (Castle.room_selector castle) ≠ [] →
  (length (stdin w) < fuel)%nat →
  ∃ castle' w',
    play_loop int_of_str strip_lower fuel castle w = (Escaped EOFError, castle', w')
    ∧ stdin w' = []
    ∧ RandomItemSelector.items (Castle.room_selector castle')
      = RandomItemSelector.items (Castle.room_selector castle).
Proof.
  induction fuel as [|fuel IH]; intros castle w Hne Hfuel; [lia|].
  rewrite play_loop_S.
  destruct (next_room_outcomes int_of_str castle w)
    as [(w1 & -> & Hnil)|(room & sel & g & w1 & Hp & -> & Hlt)].
  { by exists castle, w1. }
  destruct (pull_total (Castle.room_selector castle) (tl (rand w)))
    as (r & used & g' & Hp' & Hsome & _).
  destruct (Hsome Hne) as (c & -> & _).
  rewrite Hp' in Hp. injection Hp as <- <- <-.
  destruct (IH {| Castle.room_selector :=
                    {| RandomItemSelector.items :=
                         RandomItemSelector.items (Castle.room_selector castle);
                       RandomItemSelector.used_items := used |} |} w1)
    as (castle' & w' & Hend & Hnil & Hits); [done|lia|].
  by exists castle', w'.
Qed.

(** [play_game] always returns: whatever is typed, and wherever the input
    ends, no exception leaves it, and with more fuel than lines to read its
    loops come to an end.  The castle keeps its rooms. *)
Theorem play_game_always_returns (fuel : nat) (self : t) (w : World) :
  (length (stdin w) < fuel)%nat →
  ∃ self' w',
    play_game int_of_str strip_lower fuel self w = (Returned, self', w')
    ∧ RandomItemSelector.items (Castle.room_selector (castle self'))
      = RandomItemSelector.items (Castle.room_selector (castle self)).
Proof.
  intros Hfuel. unfold play_game. rewrite bind_run. cbn [print write]. cbv beta iota.
  match goal with |- context [play_loop _ _ fuel ?c ?w1] =>
    destruct (play_loop_ends fuel c w1) as (castle' & w' & [->|[-> _]] & Hits);
      [done|..] end.
  - by eexists _, _.
  - cbv beta iota. by eexists _, _.
Qed.

(** A game in a castle that has rooms is never over: [play_game] goes on
    until the input ends, so it returns with all of the input read and the
    farewell of the [EOFError] handler as the last thing written. *)
Theorem play_game_with_rooms_reads_all_input (fuel : nat) (self : t) (w : World) :
  RandomItemSelector.items (Castle.room_selector (castle self)) ≠ [] →
  (length (stdin w) < fuel)%nat →
  ∃ self' w',
    play_game int_of_str strip_lower fuel self w = (Returned, self', w')
    ∧ stdin w' = []
    ∧ last (stdout w')
      = Some ((newline +:+ newline +:+ "Adventure paused. Farewell.") +:+ newline).
Proof.
  intros Hne Hfuel. unfold play_game. rewrite bind_run. cbn [print write]. cbv beta iota.
  match goal with |- context [play_loop _ _ fuel ?c ?w1] =>
    destruct (play_loop_with_rooms fuel c w1) as (castle' & w' & -> & Hnil & _);
      [done..|] end.
  cbv beta iota. eexists _, _. split; [reflexivity|]. cbn [stdin stdout].
  split; [done|]. apply last_snoc.
Qed.
End game_facts.

(** * The further theorems at concrete inputs *)

Section more_instances.
Import RandomItemSelector.

(** [pull_after_add_to_exhausted]: C is added to the exhausted pool A, B. *)
Lemma pull_after_add_c :
  available sel_ab_exhausted = [] ∧ ("C" ∉ used_items sel_ab_exhausted)
  ∧ pull_random_item (add_item sel_ab_exhausted "C") [5]
    = Ret (Some "C",
           {| items := ["A"; "B"; "C"]; used_items := ["B"; "A"; "C"] |}, []).
Proof.
  assert (available sel_ab_exhausted = []) as Hav by reflexivity.
  assert ("C" ∉ used_items sel_ab_exhausted) as Hc by compute_done.
  split_and!; [done..|].
  exact (pull_after_add_to_exhausted sel_ab_exhausted "C" [5] Hav Hc).
Defined.

(** [pull_returns_unused] on the pool A, A, B with A drawn: B is next. *)
Lemma pull_returns_unused_b :
  available sel_aab_used ≠ []
  ∧ ∃ c, c ∈ items sel_aab_used ∧ (c ∉ used_items sel_aab_used)
         ∧ pull_random_item sel_aab_used [7]
           = Ret (Some c, {| items := ["A"; "A"; "B"]; used_items := ["A"] ++ [c] |}, []).
Proof.
  assert (available sel_aab_used ≠ []) as Hav by (intros E; discriminate E).
  split; [done|]. exact (pull_returns_unused sel_aab_used [7] Hav).
Defined.

(** [pull_after_cycle_redraws] on the pool A, A, B: two calls end the
    cycle, the third draws from all three entries. *)
Lemma pull_after_cycle_aab :
  items sel_aab_used ≠ []
  ∧ ∃ l s' g' c,
      pull_n 2 (reset sel_aab_used) [0; 0; 2] = Ret (Some <$> l, s', g')
      ∧ random_choice ["A"; "A"; "B"] g' = Ret (c, tl g')
      ∧ pull_random_item s' g'
        = Ret (Some c, {| items := ["A"; "A"; "B"]; used_items := [c] |}, tl g').
Proof.
  assert (items sel_aab_used ≠ []) as Hne by discriminate.
  split; [done|]. exact (pull_after_cycle_redraws sel_aab_used [0; 0; 2] Hne).
Defined.
End more_instances.

(** [select_door_first_valid_line]: three doors; the lines x and 7 are
    rejected, 2 opens the second door, zz stays unread. *)
Lemma select_door_second_door :
  ∃ w', Castle.select_door digit_of_str castle0 (world0 [1] ["x"; "7"; "2"; "zz"])
        = (Ret 2%Z, w')
        ∧ stdin w' = ["zz"] ∧ (1 ≤ 2 ≤ 4)%Z
        ∧ rand w' = [] ∧ generator w' = generator (world0 [1] ["x"; "7"; "2"; "zz"]).
Proof.
  apply (select_door_first_valid_line digit_of_str castle0
           (world0 [1] ["x"; "7"; "2"; "zz"]) ["x"; "7"] "2" ["zz"] 2%Z).
  - reflexivity.
  - repeat constructor.
  - reflexivity.
Defined.

(** [select_door_end_of_input]: three doors, and no line names one. *)
Lemma select_door_no_door :
  ∃ w', Castle.select_door digit_of_str castle0 (world0 [1] ["x"; "7"])
        = (Raise EOFError, w')
        ∧ stdin w' = [].
Proof.
  apply (select_door_end_of_input digit_of_str castle0 (world0 [1] ["x"; "7"])).
  repeat constructor.
Defined.

(** [next_room_enters_unvisited] on the first visit of the shipped castle. *)
Lemma next_room_first_visit :
  ∃ o self' w',
    Castle.next_room digit_of_str castle0 (world0 [0; 4; 1; 3] ["1"])
    = (Ret (o, self'), w')
    ∧ ∃ room, room ∈ RandomItemSelector.available (Castle.room_selector castle0)
              ∧ Castle.room_selector self'
                = {| RandomItemSelector.items := rooms;
                     RandomItemSelector.used_items := [] ++ [room] |}
              ∧ o = CONTINUE.
Proof.
  do 3 eexists. split; [vm_compute; reflexivity|].
  eapply (next_room_enters_unvisited digit_of_str castle0 _ (world0 [0; 4; 1; 3] ["1"])).
  - intros E. discriminate E.
  - vm_compute. reflexivity.
Defined.

(** [tour_enters_every_room_once]: six visits of the six shipped rooms. *)
Lemma tour_of_the_shipped_castle :
  ∃ os self' w',
    next_room_n digit_of_str 6 castle0
      (world0 [0; 4; 1; 3; 2; 2; 9; 9; 1; 0; 5; 5; 0; 1; 2; 3; 1; 1; 1; 1; 2; 0; 0; 0]
              ["1"; "2"; "9"; "1"; "2"; "1"; "1"])
    = (Ret (os, self'), w')
    ∧ RandomItemSelector.used_items (Castle.room_selector self') ≡ₚ rooms
    ∧ RandomItemSelector.items (Castle.room_selector self') = rooms
    ∧ os = replicate 6 CONTINUE.
Proof.
  do 3 eexists. split; [vm_compute; reflexivity|].
  eapply (tour_enters_every_room_once digit_of_str castle0 _
            (world0 [0; 4; 1; 3; 2; 2; 9; 9; 1; 0; 5; 5; 0; 1; 2; 3; 1; 1; 1; 1; 2; 0; 0; 0]
                    ["1"; "2"; "9"; "1"; "2"; "1"; "1"])).
  - compute_done.
  - reflexivity.
  - vm_compute. reflexivity.
Defined.

(** [next_room_without_rooms_ends] on a castle built from no rooms. *)
Lemma next_room_empty_castle :
  ∃ o self' w',
    Castle.next_room digit_of_str (Castle.__init__ (Some [])) (world0 [2] ["3"])
    = (Ret (o, self'), w')
    ∧ o = END
    ∧ Castle.room_selector self'
      = {| RandomItemSelector.items := []; RandomItemSelector.used_items := [] |}.
Proof.
  do 3 eexists. split; [vm_compute; reflexivity|].
  eapply (next_room_without_rooms_ends digit_of_str (Castle.__init__ (Some [])) _
            (world0 [2] ["3"])).
  - reflexivity.
  - vm_compute. reflexivity.
Defined.

(** [restart_prompt_first_answer]: maybe is rejected, Y restarts, n stays
    unread. *)
Lemma restart_prompt_maybe_then_yes :
  ∃ w', Game.restart_loop lower_yn (["maybe"] ++ "Y" :: ["n"]) (world0 [] [])
        = (Ret (bool_decide (lower_yn "Y" ∈ ["y"; "yes"])), w')
        ∧ stdin w' = ["n"] ∧ rand w' = [] ∧ generator w' = generator (world0 [] []).
Proof.
  apply (restart_prompt_first_answer lower_yn ["maybe"] "Y" ["n"] (world0 [] [])).
  - repeat constructor. compute_done.
  - compute_done.
Defined.

(** [play_game_always_returns] in a castle without rooms: a second game is
    started, then declined. *)
Lemma play_game_without_rooms_returns :
  ∃ self' w',
    Game.play_game digit_of_str lower_yn 8 (Game.__init__ (Some []))
      (world0 [1; 2; 3; 4; 5] ["x"; "2"; "maybe"; "Y"; "1"; "N"; "zz"])
    = (Returned, self', w')
    ∧ RandomItemSelector.items (Castle.room_selector (Game.castle self')) = [].
Proof.
  apply (play_game_always_returns digit_of_str lower_yn 8 (Game.__init__ (Some []))
           (world0 [1; 2; 3; 4; 5] ["x"; "2"; "maybe"; "Y"; "1"; "N"; "zz"])).
  simpl. lia.
Defined.

(** [play_game_with_rooms_reads_all_input] in the shipped castle. *)
Lemma play_game_shipped_reads_all :
  ∃ self' w',
    Game.play_game digit_of_str lower_yn 8 (Game.__init__ None)
      (world0 [1; 2; 3; 4; 5; 6; 7; 8; 9] ["x"; "2"; "maybe"; "Y"; "1"; "N"; "zz"])
    = (Returned, self', w')
    ∧ stdin w' = []
    ∧ last (stdout w')
      = Some ((newline +:+ newline +:+ "Adventure paused. Farewell.") +:+ newline).
Proof.
  apply (play_game_with_rooms_reads_all_input digit_of_str lower_yn 8 (Game.__init__ None)
           (world0 [1; 2; 3; 4; 5; 6; 7; 8; 9] ["x"; "2"; "maybe"; "Y"; "1"; "N"; "zz"])).
  - discriminate.
  - simpl. lia.
Defined.

(** A game in a castle without rooms, as played above: the door prompt
    rejects x, the restart prompt rejects maybe, Y starts a second game, N
    ends it, and zz is never read. *)
Example play_game_without_rooms :
  ∃ self' w',
    Game.play_game digit_of_str lower_yn 8 (Game.__init__ (Some []))
      (world0 [1; 2; 3; 4; 5] ["x"; "2"; "maybe"; "Y"; "1"; "N"; "zz"])
    = (Returned, self', w')
    ∧ stdin w' = ["zz"]
    ∧ last (stdout w') = Some ((newline +:+ "Farewell, adventurer.") +:+ newline).
Proof. do 2 eexists. split; [vm_compute; reflexivity|]. by split. Qed.
